(** * robo-swimmer: the simulation core of [game.py] and [gameutil.py]

    A shallow embedding of the game objects (GameObject, Obstacle, Player)
    and of the Game session with its methods, the polling of input in
    [process_input] included, followed by the properties that were checked
    against it.  Rendering and the wall-clock loop of [start] are left
    out; the operations they call are all here.

    Conventions of the embedding.
    - A Python [int] is a [Z].
    - Python's [/] is true division and yields a float.  Floats are
      modelled as exact rationals [Q].  The velocities, the halves of the
      screen height and of the gap, and the distance travelled are integers
      or half-integers of small size, which binary64 represents exactly;
      the player's [y], to which [gravity / 3] is added on every tick, is
      the one quantity that binary64 rounds.  [Player.update] keeps it
      exact, and the general statements about it are bounds that leave
      room for the rounding.  [Rounded.update] is the same method with
      every float operation rounded and [Rounded.binary64] the rounding
      of the machine; the statement about the lift of a stroke, which
      depends on the value of [y], is made of these.
    - [pygame.Rect] and [pygame.Surface] store C ints.  A float handed to
      them is converted by a C cast, that is, truncated toward zero
      ([Qtrunc]).
    - Objects are mutable and shared: obstacles live in a store ([heap])
      and the deque [Game.obstacles] holds references into it, so that the
      iterator of a loop and the deque rebound inside the loop see the same
      objects.
    - Methods of [Game] are computations in a state-and-exception monad
      over the session. *)

From Stdlib Require Import ZArith QArith Qabs Lqa Lia List Bool.
From stdpp Require Import base list sorting.

Local Open Scope Z_scope.

(** ** Numbers *)

(** [int(q)] as done by a C cast: rounding toward zero. *)
Definition Qtrunc (q : Q) : Z := Z.quot (Qnum q) (Zpos (Qden q)).

(** [a > b] on floats. *)
Definition Qgtb (a b : Q) : bool := negb (Qle_bool a b).

(** ** Exceptions and results *)

Inductive exn : Type :=
| AttributeError   (* attribute access on [None] *)
| PygameError.     (* pygame.error, "Invalid resolution for Surface" *)

Inductive res (A : Type) : Type :=
| Ok (a : A)
| Raise (e : exn).
Arguments Ok {A} a.
Arguments Raise {A} e.

(** ** gameutil.py *)

Inductive GameState : Type := RUNNING | OVER | PAUSED | NOT_STARTED.

Definition OBSTACLE_SPAWN_RATE_MS : Z := 1000.

(** ** pygame.Rect and pygame.Surface, as far as the game uses them *)

Module Rect.
Record t : Type := mk { x : Z; y : Z; w : Z; h : Z }.

(** [Rect((x, y), (w, h))]: float coordinates are truncated. *)
Definition new (pos : Q * Q) (size : Z * Z) : t :=
  mk (Qtrunc (fst pos)) (Qtrunc (snd pos)) (fst size) (snd size).

Definition left (r : t) : Z := x r.
Definition top (r : t) : Z := y r.
Definition right (r : t) : Z := x r + w r.
Definition bottom (r : t) : Z := y r + h r.
Definition centerx (r : t) : Z := x r + Z.quot (w r) 2.
Definition centery (r : t) : Z := y r + Z.quot (h r) 2.

(** [colliderect] as pygame 2 has it, for rectangles whose sizes are not
    negative: a rectangle of zero width or height collides with nothing;
    otherwise the two collide when they overlap, edges excluded.  Every
    rectangle of the game has the size of a surface, which is never
    negative; what pygame does with a rectangle of negative size (it
    compares the extents after ordering them) is not modelled. *)
Definition colliderect (a b : t) : bool :=
  if (w a =? 0) || (h a =? 0) || (w b =? 0) || (h b =? 0) then false
  else (x a <? x b + w b) && (y a <? y b + h b) &&
       (x b <? x a + w a) && (y b <? y a + h a).
End Rect.

Module Surface.
Record t : Type := mk { size : Z * Z }.

(** [Surface((w, h))]: the sizes become ints; a negative one is refused. *)
Definition new (sz : Q * Q) : res t :=
  let wh := (Qtrunc (fst sz), Qtrunc (snd sz)) in
  if (fst wh <? 0) || (snd wh <? 0) then Raise PygameError else Ok (mk wh).

Definition get_size (s : t) : Z * Z := size s.
Definition get_width (s : t) : Z := fst (size s).
Definition get_height (s : t) : Z := snd (size s).
End Surface.

(** ** class GameObject *)

Module GameObject.
(** [get_hitbox] of the base class: one rectangle at the position, of
    the size of the surface. *)
Definition get_hitbox (pos : Q * Q) (surface : Surface.t) : Rect.t :=
  Rect.new pos (Surface.get_size surface).
End GameObject.

(** ** class Obstacle *)

Module Obstacle.
Record t : Type := mk {
  x : Z;
  y : Z;
  screen_height : Z;
  offset : Z;
  gap_size : Z;
  speed : Z;
  top_surface : Surface.t;
  bot_surface : Surface.t;
  surface : Surface.t
}.

Definition set_x (o : t) (x' : Z) : t :=
  mk x' (y o) (screen_height o) (offset o) (gap_size o) (speed o)
     (top_surface o) (bot_surface o) (surface o).

(** [_init_surface]: the two blocks and the composite surface.  Blitting
    and colours are the renderer's business. *)
Definition init_surface (screen_height offset gap_size : Z)
  : res (Surface.t * Surface.t * Surface.t) :=
  let block_size := (inject_Z screen_height / 2)%Q in
  let gap_center := (inject_Z gap_size / 2)%Q in
  let obstacle_width := 80%Q in
  match Surface.new (obstacle_width,
                     (block_size - gap_center + inject_Z offset)%Q) with
  | Raise e => Raise e
  | Ok top =>
    match Surface.new (obstacle_width, (block_size + 200)%Q) with
    | Raise e => Raise e
    | Ok bot =>
      match Surface.new (obstacle_width, 1200%Q) with
      | Raise e => Raise e
      | Ok s => Ok (top, bot, s)
      end
    end
  end.

(** [Obstacle(screen_height)]; [offset] is the value drawn by
    [randint(-100, 100)]. *)
Definition init (screen_height offset : Z) : res t :=
  let gap_size := 170 in
  let speed := 5 in
  match init_surface screen_height offset gap_size with
  | Raise e => Raise e
  | Ok (top, bot, s) =>
    Ok (mk 1200 0 screen_height offset gap_size speed top bot s)
  end.

Definition update (o : t) : t := set_x o (x o - speed o).

Definition get_surface (o : t) : Surface.t := surface o.

Definition get_hitbox (o : t) : Rect.t * Rect.t :=
  let top := Rect.new (inject_Z (x o), inject_Z (y o))
                      (Surface.get_size (top_surface o)) in
  let bot_y := (inject_Z (y o) + (inject_Z (screen_height o) / 2)
                + (inject_Z (gap_size o) / 2) + inject_Z (offset o))%Q in
  let bot := Rect.new (inject_Z (x o), bot_y)
                      (Surface.get_size (bot_surface o)) in
  (top, bot).

(** [detect_collision(game_object)], given the other object's hitbox. *)
Definition detect_collision (o : t) (player_hitbox : Rect.t) : bool :=
  let '(top, bot) := get_hitbox o in
  let collide_top := Rect.colliderect top player_hitbox in
  let collide_bot := Rect.colliderect bot player_hitbox in
  if collide_top || collide_bot then true else false.
End Obstacle.

(** ** class Player *)

Module Player.
Record t : Type := mk {
  x : Z;
  y : Q;
  surface : Surface.t;
  velocity_up : Q
}.

Definition set_y (p : t) (y' : Q) : t := mk (x p) y' (surface p) (velocity_up p).
Definition set_velocity_up (p : t) (v : Q) : t := mk (x p) (y p) (surface p) v.

(** [Player(game)].  The surface comes from "assets/player.png"; the
    image is not part of the sources, so its surface is an argument. *)
Definition init (image : Surface.t) : t := mk 250 200%Q image 0%Q.

Definition get_hitbox (p : t) : Rect.t :=
  GameObject.get_hitbox (inject_Z (x p), y p) (surface p).

Definition swim (p : t) : t := set_velocity_up p 30%Q.

(** [update()]; [window_height] and [gravity] are read from the
    back-reference [self.game]. *)
Definition update (window_height gravity : Z) (p : t) : t :=
  let p1 :=
    if Rect.bottom (get_hitbox p) >? window_height then set_y p 570%Q
    else if Rect.top (get_hitbox p) <? 0
         then set_velocity_up (set_y p 0%Q) 0%Q
         else p in
  let p2 := set_y p1 (y p1 - velocity_up p1 / 2)%Q in
  let p3 :=
    if Qgtb (velocity_up p2) 0
    then set_velocity_up p2 (velocity_up p2 - inject_Z gravity / 4)%Q
    else p2 in
  set_y p3 (y p3 + inject_Z gravity / 3)%Q.
End Player.

(** ** class Game *)

(** References to obstacle objects: indices into the store.  A reference
    handed out by [alloc] always denotes an object; the default obstacle
    below is what the total lookup [!!!] answers for any other index and is
    never read in a session of the program. *)
Abbreviation ref := nat (only parsing).

#[global] Instance Obstacle_inhabited : Inhabited Obstacle.t :=
  populate (Obstacle.mk 0 0 0 0 0 0 (Surface.mk (0, 0)) (Surface.mk (0, 0))
                        (Surface.mk (0, 0))).

Module Game.
Record t : Type := mk {
  window : Surface.t;
  state : GameState;
  player : Player.t;
  obstacles : list ref;          (* the deque, front first *)
  obstacles_passed : Z;
  gravity : Z;
  distance_traveled : Q;
  heap : list Obstacle.t         (* the obstacle objects allocated so far *)
}.

Definition set_state (s : GameState) (g : t) : t :=
  mk (window g) s (player g) (obstacles g) (obstacles_passed g) (gravity g)
     (distance_traveled g) (heap g).
Definition set_player (p : Player.t) (g : t) : t :=
  mk (window g) (state g) p (obstacles g) (obstacles_passed g) (gravity g)
     (distance_traveled g) (heap g).
Definition set_obstacles (q : list ref) (g : t) : t :=
  mk (window g) (state g) (player g) q (obstacles_passed g) (gravity g)
     (distance_traveled g) (heap g).
Definition set_obstacles_passed (n : Z) (g : t) : t :=
  mk (window g) (state g) (player g) (obstacles g) n (gravity g)
     (distance_traveled g) (heap g).
Definition set_distance_traveled (d : Q) (g : t) : t :=
  mk (window g) (state g) (player g) (obstacles g) (obstacles_passed g)
     (gravity g) d (heap g).
Definition set_heap (h : list Obstacle.t) (g : t) : t :=
  mk (window g) (state g) (player g) (obstacles g) (obstacles_passed g)
     (gravity g) (distance_traveled g) h.

(** *** The state-and-exception monad of the methods *)

Definition M (A : Type) : Type := t -> res A * t.

Definition ret {A} (a : A) : M A := fun g => (Ok a, g).
Definition raise {A} (e : exn) : M A := fun g => (Raise e, g).
Definition bind {A B} (m : M A) (k : A -> M B) : M B :=
  fun g => match m g with
           | (Ok a, g') => k a g'
           | (Raise e, g') => (Raise e, g')
           end.
Definition gets {A} (f : t -> A) : M A := fun g => (Ok (f g), g).
Definition modify (f : t -> t) : M unit := fun g => (Ok tt, f g).

Definition eval {A} (m : M A) (g : t) : res A := fst (m g).
Definition exec {A} (m : M A) (g : t) : t := snd (m g).

Declare Scope game_scope.
Delimit Scope game_scope with game.
Notation "x <- m ;; k" := (bind m (fun x => k))
  (at level 100, m at next level, right associativity) : game_scope.
Notation "m ;; k" := (bind m (fun _ => k))
  (at level 100, right associativity) : game_scope.
Local Open Scope game_scope.

(** [for a in l: body(a)] *)
Fixpoint for_each {A} (l : list A) (body : A -> M unit) : M unit :=
  match l with
  | [] => ret tt
  | a :: l' => body a ;; for_each l' body
  end.

(** A [for] loop that carries local variables [s]. *)
Fixpoint for_fold {A S} (l : list A) (s : S) (body : A -> S -> M S) : M S :=
  match l with
  | [] => ret s
  | a :: l' => s' <- body a s ;; for_fold l' s' body
  end.

(** *** Access to obstacle objects *)

Definition deref (r : ref) : M Obstacle.t := gets (fun g => heap g !!! r).

Definition alloc (o : Obstacle.t) : M ref :=
  fun g => (Ok (length (heap g)), set_heap (heap g ++ [o]) g).

(** [obstacle.update()] on the object behind [r]. *)
Definition obstacle_update (r : ref) : M unit :=
  modify (fun g => set_heap (alter Obstacle.update r (heap g)) g).

(** Attribute access on a value that may be [None]. *)
Definition attr {A} (f : Obstacle.t -> A) (obstacle : option ref) : M A :=
  match obstacle with
  | None => raise AttributeError
  | Some r => o <- deref r ;; ret (f o)
  end.

(** *** Methods *)

(** [Game()]; [image] is the surface loaded from the player's image. *)
Definition init (image : Surface.t) : t :=
  let window_width := 1280 in
  let window_height := 640 in
  mk (Surface.mk (window_width, window_height)) NOT_STARTED
     (Player.init image) [] 0 8 0%Q [].

(** The condition of the on-screen filter. *)
Definition on_screen (o : Obstacle.t) : bool :=
  Obstacle.x o + Surface.get_width (Obstacle.get_surface o) >? 9.

Definition get_on_screen_obstacles : M (list ref) :=
  obs <- gets obstacles ;;
  h <- gets heap ;;
  let ocount := length obs in
  let obstacles' := List.filter (fun r => on_screen (h !!! r)) obs in
  modify (fun g => set_obstacles_passed
            (obstacles_passed g
             + (Z.of_nat ocount - Z.of_nat (length obstacles'))) g) ;;
  ret obstacles'.

(** One iteration of the loop of [update]. *)
Definition update_body (obstacle : ref) : M unit :=
  obstacle_update obstacle ;;
  o <- deref obstacle ;;
  p <- gets player ;;
  (if Obstacle.detect_collision o (Player.get_hitbox p)
   then modify (set_state OVER) else ret tt) ;;
  q <- get_on_screen_obstacles ;;
  modify (set_obstacles q).

Definition update_player : M unit :=
  modify (fun g => set_player
            (Player.update (Surface.get_height (window g)) (gravity g)
                           (player g)) g).

Definition update : M unit :=
  update_player ;;
  modify (fun g => set_distance_traveled (distance_traveled g + 1)%Q g) ;;
  obs <- gets obstacles ;;
  for_each obs update_body.

(** [add_obstacle()]; [offset] is the random draw of the constructor. *)
Definition add_obstacle (offset : Z) : M unit :=
  height <- gets (fun g => Surface.get_height (window g)) ;;
  match Obstacle.init height offset with
  | Raise e => raise e
  | Ok o => r <- alloc o ;;
            modify (fun g => set_obstacles (obstacles g ++ [r]) g)
  end.

(** [get_next_obstacle()].  The locals [closest_obstacle] and
    [closest_pos] are assigned together the first time and start as
    [None]; they are carried as one optional pair.  The second
    assignment changes [closest_obstacle] only. *)
Definition next_obstacle_body (player_pos : Z) (obstacle : ref)
    (closest : option (ref * Z)) : M (option (ref * Z)) :=
  o <- deref obstacle ;;
  let obstacle_pos := Rect.centerx (fst (Obstacle.get_hitbox o)) in
  if obstacle_pos >? player_pos then
    match closest with
    | None =>
        o' <- deref obstacle ;;
        ret (Some (obstacle, Rect.centerx (fst (Obstacle.get_hitbox o'))))
    | Some (closest_obstacle, closest_pos) =>
        if closest_pos >? obstacle_pos
        then ret (Some (obstacle, closest_pos))
        else ret closest
    end
  else ret closest.

Definition get_next_obstacle : M (option ref) :=
  p <- gets player ;;
  let player_pos := Rect.centerx (Player.get_hitbox p) in
  obs <- gets obstacles ;;
  closest <- for_fold obs None (next_obstacle_body player_pos) ;;
  ret (option_map fst closest).

Definition distance_to_obstacle (obstacle : option ref) : M Z :=
  hitbox <- attr Obstacle.get_hitbox obstacle ;;
  let obstacle_center := Rect.centerx (fst hitbox) in
  p <- gets player ;;
  let player_center := Rect.centerx (Player.get_hitbox p) in
  ret (obstacle_center - player_center).

Definition height_to_obstacle (obstacle : option ref) : M Q :=
  hitbox <- attr Obstacle.get_hitbox obstacle ;;
  gap_size <- attr Obstacle.gap_size obstacle ;;
  let obstacle_gap_center :=
    (inject_Z (Rect.bottom (fst hitbox)) + inject_Z gap_size / 2)%Q in
  p <- gets player ;;
  let player_center_height := Rect.centery (Player.get_hitbox p) in
  ret (obstacle_gap_center - inject_Z player_center_height)%Q.

Definition get_score : M Z := gets obstacles_passed.

(** [init_game()]; arming the spawn timer is left to pygame. *)
Definition init_game : M unit := modify (set_state RUNNING).

Definition calculate_fitness : M Q :=
  next_obstacle <- get_next_obstacle ;;
  delta_distance <- distance_to_obstacle next_obstacle ;;
  height <- height_to_obstacle next_obstacle ;;
  let delta_height := Qabs height in
  d <- gets distance_traveled ;;
  ret (d - (inject_Z delta_distance + delta_height))%Q.
End Game.

(** ** Runs of the program *)

(** [n] calls of [Game.update()]. *)
Definition ticks (n : nat) (g : Game.t) : Game.t :=
  Nat.iter n (Game.exec Game.update) g.

(** Calls made on the player alone; [update] reads the window height and
    the gravity of the session the player belongs to. *)
Inductive player_call : Type := CallSwim | CallUpdate.

Definition player_step (g : Game.t) (p : Player.t) (c : player_call) : Player.t :=
  match c with
  | CallSwim => Player.swim p
  | CallUpdate =>
      Player.update (Surface.get_height (Game.window g)) (Game.gravity g) p
  end.

Definition player_run (image : Surface.t) (calls : list player_call) : Player.t :=
  fold_left (player_step (Game.init image)) calls (Player.init image).

(** The core operations of a session.  Queries take the obstacle they are
    asked about as an argument, which may be [None]. *)
Inductive op : Type :=
| OpInitGame
| OpUpdate
| OpAddObstacle (offset : Z)
| OpSwim
| OpGetNextObstacle
| OpDistanceToObstacle (obstacle : option ref)
| OpHeightToObstacle (obstacle : option ref)
| OpCalculateFitness
| OpGetScore.

Definition discard {A} (m : Game.M A) : Game.M unit :=
  Game.bind m (fun _ => Game.ret tt).

Definition run_op (o : op) : Game.M unit :=
  match o with
  | OpInitGame => Game.init_game
  | OpUpdate => Game.update
  | OpAddObstacle offset => Game.add_obstacle offset
  | OpSwim => Game.modify (fun g => Game.set_player (Player.swim (Game.player g)) g)
  | OpGetNextObstacle => discard Game.get_next_obstacle
  | OpDistanceToObstacle r => discard (Game.distance_to_obstacle r)
  | OpHeightToObstacle r => discard (Game.height_to_obstacle r)
  | OpCalculateFitness => discard Game.calculate_fitness
  | OpGetScore => discard Game.get_score
  end.

(** The session after a sequence of operations; an exception raised by
    one of them is caught by the caller and the sequence goes on. *)
Definition run (ops : list op) (g : Game.t) : Game.t :=
  fold_left (fun g o => Game.exec (run_op o) g) ops g.

(** Every obstacle object is made by [Obstacle.init], which sets its
    speed to 5, and nothing assigns the speed afterwards. *)
Definition heap_wf (h : list Obstacle.t) : Prop :=
  Forall (fun o => Obstacle.speed o = 5) h.

(** ** The simplified tick of the specification *)

Module Simplified.
Import Game.
Local Open Scope game_scope.

(** The loop body of [update] without the re-filtering. *)
Definition update_body (obstacle : ref) : M unit :=
  obstacle_update obstacle ;;
  o <- deref obstacle ;;
  p <- gets player ;;
  (if Obstacle.detect_collision o (Player.get_hitbox p)
   then modify (set_state OVER) else ret tt).

(** [update] with the on-screen filter applied once per tick, after the
    loop, as the specification proposes. *)
Definition update : M unit :=
  update_player ;;
  modify (fun g => set_distance_traveled (distance_traveled g + 1)%Q g) ;;
  obs <- gets obstacles ;;
  for_each obs update_body ;;
  q <- get_on_screen_obstacles ;;
  modify (set_obstacles q).
End Simplified.

(** ** Direct forms of the loop of [update], used in the proofs *)

(** Moving one obstacle and testing it against the player. *)
Definition move (g : Game.t) (r : ref) : Game.t :=
  let g1 := Game.set_heap (alter Obstacle.update r (Game.heap g)) g in
  if Obstacle.detect_collision (Game.heap g1 !!! r)
       (Player.get_hitbox (Game.player g1))
  then Game.set_state OVER g1 else g1.

(** Applying the on-screen filter to the queue and counting the drop. *)
Definition sweep (g : Game.t) : Game.t :=
  let q := List.filter (fun r => Game.on_screen (Game.heap g !!! r))
                       (Game.obstacles g) in
  Game.set_obstacles q
    (Game.set_obstacles_passed
       (Game.obstacles_passed g
        + (Z.of_nat (length (Game.obstacles g)) - Z.of_nat (length q))) g).

(** The position [get_next_obstacle] compares: the horizontal center of
    the top rectangle. *)
Definition obstacle_pos (g : Game.t) (r : ref) : Z :=
  Rect.centerx (fst (Obstacle.get_hitbox (Game.heap g !!! r))).

Definition player_pos (g : Game.t) : Z :=
  Rect.centerx (Player.get_hitbox (Game.player g)).

Definition ahead (g : Game.t) (r : ref) : Prop := obstacle_pos g r > player_pos g.

(** The obstacle the specification asks for: among those ahead of the
    player the one with the smallest center, the first of them in queue
    order when several share it. *)
Fixpoint closest_ahead (pos : ref -> Z) (player : Z) (l : list ref)
    (best : option ref) : option ref :=
  match l with
  | [] => best
  | r :: l' =>
      closest_ahead pos player l'
        (if pos r >? player then
           match best with
           | None => Some r
           | Some b => if pos b >? pos r then Some r else best
           end
         else best)
  end.

(** ** Auxiliary forms of [Player.update] *)

(** The velocity after the two clamps of [update]. *)
Definition clamped_velocity (window_height : Z) (p : Player.t) : Q :=
  if Rect.bottom (Player.get_hitbox p) >? window_height
  then Player.velocity_up p
  else if Rect.top (Player.get_hitbox p) <? 0 then 0%Q
       else Player.velocity_up p.

(** The height after the two clamps of [update]. *)
Definition clamped_y (window_height : Z) (p : Player.t) : Q :=
  if Rect.bottom (Player.get_hitbox p) >? window_height then 570%Q
  else if Rect.top (Player.get_hitbox p) <? 0 then 0%Q
       else Player.y p.

(** The values the upward velocity takes: 0, 2, ..., 30. *)
Definition velocity_ok (p : Player.t) : Prop :=
  exists k : Z, 0 <= k <= 15 /\ (Player.velocity_up p == inject_Z (2 * k))%Q.

(** ** Auxiliary forms of the tick *)

(** The start of [Game.update]: the player moves and the distance grows. *)
Definition begin_tick (g : Game.t) : Game.t :=
  Game.set_distance_traveled (Game.distance_traveled g + 1)%Q
    (Game.set_player
       (Player.update (Surface.get_height (Game.window g)) (Game.gravity g)
                      (Game.player g)) g).

(** Replacing the queue and the counter. *)
Definition requeue (q : list ref) (n : Z) (g : Game.t) : Game.t :=
  Game.set_obstacles q (Game.set_obstacles_passed n g).

(** The obstacles ever spawned that the queue no longer holds, plus those
    it holds. *)
Definition accounted (g : Game.t) : Z :=
  Game.obstacles_passed g + Z.of_nat (length (Game.obstacles g)).

(** The part of a session that the obstacles make up: the store, the
    queue and the counter. *)
Definition obstacle_view (g : Game.t) : list Obstacle.t * list ref * Z :=
  (Game.heap g, Game.obstacles g, Game.obstacles_passed g).

(** One tick seen on that part alone: every queued obstacle moves, then
    the queue is filtered and the drop counted. *)
Definition obstacle_view_tick (v : list Obstacle.t * list ref * Z)
    : list Obstacle.t * list ref * Z :=
  let '(h, q, n) := v in
  let h' := fold_left (fun h0 r => alter Obstacle.update r h0) q h in
  let q' := List.filter (fun r => Game.on_screen (h' !!! r)) q in
  (h', q', n + (Z.of_nat (length q) - Z.of_nat (length q'))).

(** A method that only reads the session. *)
Definition read_only {A} (m : Game.M A) : Prop :=
  forall g, Game.exec m g = g.

(** The loop body of [get_next_obstacle] on its local variables. *)
Definition next_obstacle_step (g : Game.t) (closest : option (ref * Z))
    (r : ref) : option (ref * Z) :=
  if obstacle_pos g r >? player_pos g then
    match closest with
    | None => Some (r, obstacle_pos g r)
    | Some (_, closest_pos) =>
        if closest_pos >? obstacle_pos g r then Some (r, closest_pos)
        else closest
    end
  else closest.

(** ** Sessions used as examples *)

(** An obstacle as [Obstacle(640)] builds it with offset 0, moved to [x]. *)
Definition obstacle_at (x : Z) : Obstacle.t :=
  Obstacle.mk x 0 640 0 170 5 (Surface.mk (80, 235)) (Surface.mk (80, 520))
              (Surface.mk (80, 1200)).

(** A session whose queue is not in the order of the positions: the
    obstacles stand at 1000, 500 and 700, all ahead of the player. *)
Definition unordered_session : Game.t :=
  Game.set_obstacles [0%nat; 1%nat; 2%nat]
    (Game.set_heap [obstacle_at 1000; obstacle_at 500; obstacle_at 700]
       (Game.init (Surface.mk (70, 70)))).

(** The queue is in the order of the positions, nearest to the left edge
    first. *)
Definition queue_sorted (g : Game.t) : Prop :=
  StronglySorted (fun a b => obstacle_pos g a <= obstacle_pos g b)
                 (Game.obstacles g).

(** ** Sessions of the program *)

(** The sessions the operations lead to from a new [Game()]. *)
Definition reachable (g : Game.t) : Prop :=
  exists (image : Surface.t) (ops : list op), g = run ops (Game.init image).

(** What the constructor and [update()] establish for every obstacle. *)
Definition obstacle_built (o : Obstacle.t) : Prop :=
  Obstacle.speed o = 5
  /\ Surface.get_width (Obstacle.top_surface o) = 80
  /\ Obstacle.x o <= 1200.

(** What holds of the queue and the store of every reachable session:
    the objects are built, the queue refers to distinct objects of the
    store, and it is in the order of their [x]. *)
Record session_ok (g : Game.t) : Prop := {
  ok_built : Forall obstacle_built (Game.heap g);
  ok_refs : Forall (fun r => (r < length (Game.heap g))%nat) (Game.obstacles g);
  ok_distinct : NoDup (Game.obstacles g);
  ok_sorted :
    StronglySorted
      (fun a b => Obstacle.x (Game.heap g !!! a) <= Obstacle.x (Game.heap g !!! b))
      (Game.obstacles g)
}.

(** The collision test the loop of [update] makes for the obstacle [r]
    when its turn comes in the session [g]: the obstacle is moved, then
    tested against the player. *)
Definition collides_at (g : Game.t) (r : ref) : bool :=
  Obstacle.detect_collision (alter Obstacle.update r (Game.heap g) !!! r)
                            (Player.get_hitbox (Game.player g)).

(** ** [Game.process_input] *)

(** The keys the game tells apart. *)
Inductive key : Type := K_SPACE | K_o | K_q | K_other.

(** The events [event.get()] hands over.  An event has one type, so the
    three tests of the loop on [game_event.type] select one alternative.
    [draw] is the value [randint(-100, 100)] returns if handling the event
    constructs an obstacle. *)
Inductive event : Type :=
| EvQuit                            (* type QUIT *)
| EvObstacleSpawn (draw : Z)        (* type OBSTACLE_SPAWN_EVENT *)
| EvKeyDown (k : key) (draw : Z)    (* type KEYDOWN *)
| EvOther.                          (* any other type *)

(** How the handling of an event ends: [Exit] is the SystemExit that
    [exit()] raises and that nothing in the program catches. *)
Inductive flow : Type := Continue | Exit.

(** [self.player.swim()] *)
Definition player_swim : Game.M unit :=
  Game.modify (fun g => Game.set_player (Player.swim (Game.player g)) g).

(** The body of the loop of [process_input] for one event. *)
Definition handle_event (e : event) : Game.M flow :=
  match e with
  | EvQuit => Game.ret Exit
  | EvObstacleSpawn draw =>
      Game.bind (Game.add_obstacle draw) (fun _ => Game.ret Continue)
  | EvKeyDown k draw =>
      Game.bind (match k with K_SPACE => player_swim | _ => Game.ret tt end)
        (fun _ =>
      Game.bind (match k with K_o => Game.add_obstacle draw | _ => Game.ret tt end)
        (fun _ =>
      match k with K_q => Game.ret Exit | _ => Game.ret Continue end))
  | EvOther => Game.ret Continue
  end.

(** [process_input()] on the events of one poll: the loop stops at the
    first [exit()]. *)
Fixpoint process_input (events : list event) : Game.M flow :=
  match events with
  | [] => Game.ret Continue
  | e :: rest =>
      Game.bind (handle_event e) (fun f =>
        match f with
        | Exit => Game.ret Exit
        | Continue => process_input rest
        end)
  end.

(** The events that ask to quit, those that spawn an obstacle, and the
    draw a spawning event carries. *)
Definition is_quit (e : event) : bool :=
  match e with
  | EvQuit | EvKeyDown K_q _ => true
  | _ => false
  end.

Definition is_spawn (e : event) : bool :=
  match e with
  | EvObstacleSpawn _ | EvKeyDown K_o _ => true
  | _ => false
  end.

Definition is_swim (e : event) : bool :=
  match e with
  | EvKeyDown K_SPACE _ => true
  | _ => false
  end.

Definition event_draw (e : event) : Z :=
  match e with
  | EvObstacleSpawn d | EvKeyDown _ d => d
  | _ => 0
  end.

(** The events in front of the first one that quits. *)
Fixpoint before_quit (events : list event) : list event :=
  match events with
  | [] => []
  | e :: rest => if is_quit e then [] else e :: before_quit rest
  end.

(** ** Further auxiliary notions *)

(** [self.obstacles = self.get_on_screen_obstacles()], the last statement
    of the loop of [update]. *)
Definition refilter : Game.M unit :=
  Game.bind Game.get_on_screen_obstacles
            (fun q => Game.modify (Game.set_obstacles q)).

(** The calls of [update] and of [add_obstacle] in a sequence of
    operations. *)
Definition count_updates (ops : list op) : nat :=
  length (List.filter (fun o => match o with OpUpdate => true | _ => false end) ops).

Definition count_spawns (ops : list op) : nat :=
  length (List.filter (fun o => match o with OpAddObstacle _ => true | _ => false end) ops).

(** The offsets [randint(-100, 100)] can draw. *)
Definition draw_in_range (d : Z) : Prop := -100 <= d <= 100.

Definition op_draws_in_range (o : op) : Prop :=
  match o with
  | OpAddObstacle d => draw_in_range d
  | _ => True
  end.

(** The number of queued obstacles the on-screen filter rejects. *)
Definition off_screen_count (g : Game.t) : nat :=
  length (List.filter (fun r => negb (Game.on_screen (Game.heap g !!! r)))
                      (Game.obstacles g)).

(** What holds, besides [session_ok], of every obstacle of a reachable
    session: its composite surface and its bottom block are 80 wide and
    its [x] is 1200 less a multiple of the speed. *)
Definition obstacle_regular (o : Obstacle.t) : Prop :=
  Surface.get_width (Obstacle.get_surface o) = 80
  /\ Surface.get_width (Obstacle.bot_surface o) = 80
  /\ exists k : Z, 0 <= k /\ Obstacle.x o = 1200 - 5 * k.

Definition queue_on_screen (g : Game.t) : Prop :=
  Forall (fun r => Game.on_screen (Game.heap g !!! r) = true) (Game.obstacles g).

(** The second part of what holds of every reachable session. *)
Definition session_regular (g : Game.t) : Prop :=
  Forall (fun o => obstacle_built o /\ obstacle_regular o) (Game.heap g)
  /\ queue_on_screen g.

(** The upward velocity [k] ticks after a [swim()], and the height gained
    by then, as [update] computes them step by step in exact arithmetic
    when no clamp fires. *)
Fixpoint swim_velocity (k : nat) : Q :=
  match k with
  | O => 30
  | S k' => swim_velocity k' - inject_Z 8 / 4
  end.

Fixpoint swim_rise (k : nat) : Q :=
  match k with
  | O => 0
  | S k' => swim_rise k' + swim_velocity k' / 2 - inject_Z 8 / 3
  end.

(** *** The player's height in binary64

    The player's [y] is the one quantity of the game that binary64 has to
    round: [gravity / 3] is not a float, and neither are the sums it
    enters.  [Rounded.update] is [Player.update] with the result of every
    float operation passed through a rounding [rnd]; [Rounded.binary64] is
    the rounding of the machine. *)

Module Rounded.
(** The fraction [n/d * 2^k]. *)
Definition scale2 (n d k : Z) : Z * Z :=
  if 0 <=? k then (n * 2 ^ k, d) else (n, d * 2 ^ (- k)).

(** The binary exponent [e] of a positive fraction:
    [2^e <= n/d < 2^(e+1)]. *)
Definition exponent (n d : Z) : Z :=
  let k := Z.log2 n - Z.log2 d in
  let '(n', d') := scale2 n d (- k) in
  if n' <? d' then k - 1 else k.

(** The integer nearest to [n/d], the even one of two equally near. *)
Definition nearest_even (n d : Z) : Z :=
  let q := n / d in
  let r := n mod d in
  if 2 * r <? d then q
  else if d <? 2 * r then q + 1
  else if Z.even q then q else q + 1.

(** The float nearest to a rational: a significand of 53 bits, ties to
    the even significand, exponents from -1022 with gradual underflow
    below.  The overflow to infinity beyond the largest float is not
    modelled; no value of the game comes near it. *)
Definition binary64 (q : Q) : Q :=
  let n := Qnum q in
  let d := Zpos (Qden q) in
  if n =? 0 then 0%Q
  else
    let e := Z.max (exponent (Z.abs n) d) (-1022) in
    let '(n', d') := scale2 (Z.abs n) d (52 - e) in
    let m := nearest_even n' d' in
    let '(a, b) := scale2 m 1 (e - 52) in
    Qred (Z.sgn n * a # Z.to_pos b).

(** [Player.update] with rounded arithmetic.  The comparisons and the
    conversion to int in the hitbox are exact. *)
Definition update (rnd : Q -> Q) (window_height gravity : Z) (p : Player.t)
    : Player.t :=
  let p1 :=
    if Rect.bottom (Player.get_hitbox p) >? window_height
    then Player.set_y p 570%Q
    else if Rect.top (Player.get_hitbox p) <? 0
         then Player.set_velocity_up (Player.set_y p 0%Q) 0%Q
         else p in
  let p2 :=
    Player.set_y p1
      (rnd (Player.y p1 - rnd (Player.velocity_up p1 / 2)))%Q in
  let p3 :=
    if Qgtb (Player.velocity_up p2) 0
    then Player.set_velocity_up p2
           (rnd (Player.velocity_up p2 - rnd (inject_Z gravity / 4)))%Q
    else p2 in
  Player.set_y p3 (rnd (Player.y p3 + rnd (inject_Z gravity / 3)))%Q.
End Rounded.

(** Half a unit in the last place of a float below 2048, [2^-43]: the
    most that rounding changes a result of absolute value up to 1024. *)
Definition half_ulp : Q := 1 # 8796093022208.

(** The rounding error gathered in [y] over [k] ticks: three rounded
    operations enter it on each tick. *)
Fixpoint stroke_error (k : nat) : Q :=
  match k with
  | O => 0
  | S k' => stroke_error k' + 3 * half_ulp
  end.

(** The player [k] ticks after a [swim()] at height [y0], no clamp having
    fired, up to the rounding of [y]. *)
Definition stroking (p0 : Player.t) (k : nat) (p : Player.t) : Prop :=
  Player.x p = Player.x p0
  /\ Player.surface p = Player.surface p0
  /\ (Player.velocity_up p == swim_velocity k)%Q
  /\ (Qabs (Player.y p - (Player.y p0 - swim_rise k)) <= stroke_error k)%Q.

(** What every player reached from [Player.init image] satisfies. *)
Definition player_in_range (image : Surface.t) (p : Player.t) : Prop :=
  velocity_ok p
  /\ Player.surface p = image
  /\ (inject_Z (-14) < Player.y p)%Q
  /\ Qtrunc (Player.y p) + Surface.get_height image <= 643.

(** The object [Obstacle(640)] makes when [randint] draws [d]. *)
Definition spawned (d : Z) : Obstacle.t :=
  Obstacle.mk 1200 0 640 d 170 5
              (Surface.mk (80, 640 / 2 - 85 + d))
              (Surface.mk (80, 640 / 2 + 200))
              (Surface.mk (80, 1200)).

(** The session after one event that does not quit. *)
Definition after_event (e : event) (g : Game.t) : Game.t :=
  if is_spawn e then
    Game.set_obstacles (Game.obstacles g ++ [length (Game.heap g)])
      (Game.set_heap (Game.heap g ++ [spawned (event_draw e)]) g)
  else if is_swim e then Game.set_player (Player.swim (Game.player g)) g
  else g.

(** An operation other than [init_game()]. *)
Definition not_init_game (o : op) : Prop := o <> OpInitGame.

(** * Properties *)

(** ** Truncation *)

Section Truncation.
Local Open Scope Z_scope.

Lemma Qtrunc_inject_Z (z : Z) : Qtrunc (inject_Z z) = z.
Proof. unfold Qtrunc; simpl. apply Z.quot_1_r. Qed.

(** On a non-negative rational, truncation is the integer part. *)
Lemma Qtrunc_nonneg_unique (q : Q) (z : Z) :
  0 <= z -> (inject_Z z <= q)%Q -> (q < inject_Z (z + 1))%Q -> Qtrunc q = z.
Proof.
  destruct q as [n d]. unfold Qtrunc, Qle, Qlt; simpl. intros Hz Hlo Hhi.
  rewrite Z.quot_div_nonneg by nia.
  symmetry. apply Z.div_unique with (r := n - Z.pos d * z); nia.
Qed.

(** A rational below [z + 1], with [z] not negative, truncates to at
    most [z]. *)
Lemma Qtrunc_le (q : Q) (z : Z) :
  0 <= z -> (q < inject_Z (z + 1))%Q -> Qtrunc q <= z.
Proof.
  destruct q as [n d]. unfold Qtrunc, Qlt; simpl. intros Hz H.
  destruct (Z.le_gt_cases 0 n) as [Hn | Hn].
  - rewrite Z.quot_div_nonneg by lia.
    apply Z.lt_succ_r. apply Z.div_lt_upper_bound; nia.
  - pose proof (Z.quot_opp_l n (Z.pos d) ltac:(lia)) as Ho.
    assert (0 <= (- n) ÷ Z.pos d) by (apply Z.quot_pos; lia).
    lia.
Qed.

(** Every rational is below the successor of its truncation. *)
Lemma Qtrunc_lt_succ (q : Q) : (q < inject_Z (Qtrunc q + 1))%Q.
Proof.
  destruct q as [n d]. unfold Qtrunc, Qlt; simpl.
  pose proof (Z.quot_rem' n (Z.pos d)) as E.
  destruct (Z.le_gt_cases 0 n) as [Hn | Hn].
  - pose proof (Z.rem_bound_pos n (Z.pos d) Hn ltac:(lia)). nia.
  - pose proof (Z.rem_bound_pos_neg n (Z.pos d) ltac:(lia) ltac:(lia)). nia.
Qed.
End Truncation.

(** ** Obstacles *)

Section ObstacleFacts.
Local Open Scope Z_scope.

(** [update] moves the obstacle and touches nothing else. *)
Lemma Obstacle_updates_x (n : nat) (o : Obstacle.t) :
  Nat.iter n Obstacle.update o
  = Obstacle.set_x o (Obstacle.x o - Z.of_nat n * Obstacle.speed o).
Proof.
  induction n as [| n IH].
  - simpl. destruct o; unfold Obstacle.set_x; simpl. f_equal. lia.
  - rewrite Nat2Z.inj_succ. simpl Nat.iter. rewrite IH.
    unfold Obstacle.update, Obstacle.set_x; simpl. f_equal. lia.
Qed.

Lemma Obstacle_init_ok (screen_height offset : Z) :
  370 <= screen_height -> -100 <= offset <= 100 ->
  Obstacle.init screen_height offset
  = Ok (Obstacle.mk 1200 0 screen_height offset 170 5
          (Surface.mk (80, screen_height / 2 - 85 + offset))
          (Surface.mk (80, screen_height / 2 + 200))
          (Surface.mk (80, 1200))).
Proof.
  intros Hsh Hoff.
  pose proof (Z.div_mod screen_height 2 ltac:(lia)) as E.
  pose proof (Z.mod_pos_bound screen_height 2 ltac:(lia)) as B.
  unfold Obstacle.init, Obstacle.init_surface, Surface.new.
  cbn [fst snd].
  replace (Qtrunc 80) with 80 by reflexivity.
  replace (Qtrunc 1200) with 1200 by reflexivity.
  rewrite (Qtrunc_nonneg_unique _ (screen_height / 2 - 85 + offset));
    [| lia | unfold Qle; cbn; lia | unfold Qlt; cbn; lia].
  rewrite (Qtrunc_nonneg_unique _ (screen_height / 2 + 200));
    [| lia | unfold Qle; cbn; lia | unfold Qlt; cbn; lia].
  cbn [fst snd].
  replace (80 <? 0) with false by reflexivity. cbn [orb].
  destruct (Z.ltb_spec (screen_height / 2 - 85 + offset) 0); [lia |].
  destruct (Z.ltb_spec (screen_height / 2 + 200) 0); [lia |].
  reflexivity.
Qed.
End ObstacleFacts.

(** C6.  An obstacle built for a screen at least 370 high (the window is
    640 high) with any offset drawn from [-100, 100] is constructed without
    error, and at construction and after every [update()] the top edge of
    its bottom rectangle, [y + screen_height/2 + gap_size/2 + offset], lies
    exactly [gap_size] = 170 below the bottom edge of its top rectangle,
    [y + screen_height/2 - gap_size/2 + offset]; the two rectangles do not
    overlap.  (The edges are ints: for an odd screen height the half is
    truncated, which is what the integer division below writes.) *)
Theorem obstacle_blocks_never_overlap (screen_height offset : Z) (n : nat) :
  370 <= screen_height -> -100 <= offset <= 100 ->
  exists o, Obstacle.init screen_height offset = Ok o /\
    let o' := Nat.iter n Obstacle.update o in
    let top := fst (Obstacle.get_hitbox o') in
    let bot := snd (Obstacle.get_hitbox o') in
    Obstacle.gap_size o' = 170 /\
    Rect.bottom top = Obstacle.y o' + screen_height / 2 - 170 / 2 + offset /\
    Rect.top bot = Obstacle.y o' + screen_height / 2 + 170 / 2 + offset /\
    Rect.top bot = Rect.bottom top + Obstacle.gap_size o' /\
    Rect.colliderect top bot = false.
Proof.
  intros Hsh Hoff. eexists. split; [apply Obstacle_init_ok; assumption |].
  rewrite Obstacle_updates_x. cbv zeta.
  pose proof (Z.div_mod screen_height 2 ltac:(lia)) as E.
  pose proof (Z.mod_pos_bound screen_height 2 ltac:(lia)) as B.
  unfold Obstacle.get_hitbox, Obstacle.set_x, Rect.new, Rect.bottom, Rect.top,
    Rect.colliderect, Surface.get_size.
  cbn [fst snd Obstacle.x Obstacle.y Obstacle.screen_height Obstacle.offset
       Obstacle.gap_size Obstacle.top_surface Obstacle.bot_surface
       Surface.size Rect.x Rect.y Rect.w Rect.h].
  rewrite !Qtrunc_inject_Z.
  rewrite (Qtrunc_nonneg_unique _ (screen_height / 2 + 85 + offset));
    [| lia | unfold Qle; cbn; lia | unfold Qlt; cbn; lia].
  change (170 / 2) with 85.
  repeat match goal with |- _ /\ _ => split end; try lia.
  match goal with |- (if ?c then _ else _) = _ => destruct c end;
    [reflexivity |].
  rewrite !andb_false_iff, !Z.ltb_ge. lia.
Qed.

Lemma obstacle_blocks_never_overlap_witness :
  370 <= 640 /\ -100 <= 0 <= 100 /\
  exists o, Obstacle.init 640 0 = Ok o /\
    let o' := Nat.iter 3 Obstacle.update o in
    let top := fst (Obstacle.get_hitbox o') in
    let bot := snd (Obstacle.get_hitbox o') in
    Obstacle.gap_size o' = 170 /\
    Rect.bottom top = Obstacle.y o' + 640 / 2 - 170 / 2 + 0 /\
    Rect.top bot = Obstacle.y o' + 640 / 2 + 170 / 2 + 0 /\
    Rect.top bot = Rect.bottom top + Obstacle.gap_size o' /\
    Rect.colliderect top bot = false.
Proof.
  split; [lia |]. split; [lia |].
  apply (obstacle_blocks_never_overlap 640 0 3); lia.
Defined.

(** ** The player *)

Section PlayerFacts.
Local Open Scope Z_scope.

Lemma Qgtb_true (a b : Q) : Qgtb a b = true <-> (b < a)%Q.
Proof.
  unfold Qgtb. rewrite negb_true_iff, <- not_true_iff_false, Qle_bool_iff.
  split; [apply Qnot_le_lt | apply Qlt_not_le].
Qed.

Lemma Qgtb_false (a b : Q) : Qgtb a b = false <-> (a <= b)%Q.
Proof. unfold Qgtb. rewrite negb_false_iff. apply Qle_bool_iff. Qed.

Lemma Player_update_velocity (window_height gravity : Z) (p : Player.t) :
  Player.velocity_up (Player.update window_height gravity p)
  = let v := clamped_velocity window_height p in
    if Qgtb v 0 then (v - inject_Z gravity / 4)%Q else v.
Proof.
  unfold Player.update, clamped_velocity.
  destruct (Rect.bottom (Player.get_hitbox p) >? window_height);
    [| destruct (Rect.top (Player.get_hitbox p) <? 0)]; cbn;
    match goal with |- context [Qgtb ?v 0] => destruct (Qgtb v 0) end;
    reflexivity.
Qed.

Lemma Player_update_y (window_height gravity : Z) (p : Player.t) :
  Player.y (Player.update window_height gravity p)
  = (clamped_y window_height p - clamped_velocity window_height p / 2
     + inject_Z gravity / 3)%Q.
Proof.
  unfold Player.update, clamped_y, clamped_velocity.
  destruct (Rect.bottom (Player.get_hitbox p) >? window_height);
    [| destruct (Rect.top (Player.get_hitbox p) <? 0)]; cbn;
    match goal with |- context [Qgtb ?v 0] => destruct (Qgtb v 0) end;
    reflexivity.
Qed.

Lemma Player_update_frame (window_height gravity : Z) (p : Player.t) :
  Player.x (Player.update window_height gravity p) = Player.x p
  /\ Player.surface (Player.update window_height gravity p) = Player.surface p.
Proof.
  unfold Player.update.
  destruct (Rect.bottom (Player.get_hitbox p) >? window_height);
    [| destruct (Rect.top (Player.get_hitbox p) <? 0)]; cbn;
    match goal with |- context [Qgtb ?v 0] => destruct (Qgtb v 0) end;
    split; reflexivity.
Qed.

Lemma velocity_ok_init (image : Surface.t) : velocity_ok (Player.init image).
Proof. exists 0. split; [lia | reflexivity]. Qed.

Lemma velocity_ok_swim (p : Player.t) : velocity_ok (Player.swim p).
Proof. exists 15. split; [lia | reflexivity]. Qed.

Lemma velocity_ok_update (window_height : Z) (p : Player.t) :
  velocity_ok p -> velocity_ok (Player.update window_height 8 p).
Proof.
  intros [k [Hk Hv]]. unfold velocity_ok.
  rewrite Player_update_velocity. cbv zeta.
  assert (Hc : exists k', 0 <= k' <= 15 /\
               (clamped_velocity window_height p == inject_Z (2 * k'))%Q).
  { unfold clamped_velocity.
    destruct (_ >? _); [eauto |]. destruct (_ <? _); [| eauto].
    exists 0. split; [lia | reflexivity]. }
  clear k Hk Hv. destruct Hc as [k [Hk Hv]].
  destruct (Qgtb (clamped_velocity window_height p) 0) eqn:Hpos.
  - apply Qgtb_true in Hpos. rewrite Hv in Hpos.
    assert (0 < k) by (unfold Qlt in Hpos; simpl in Hpos; lia).
    exists (k - 1). split; [lia |]. rewrite Hv.
    unfold Qeq; cbn; lia.
  - eauto.
Qed.

Lemma velocity_ok_run (image : Surface.t) (calls : list player_call) :
  velocity_ok (player_run image calls).
Proof.
  unfold player_run. induction calls as [| c calls IH] using rev_ind.
  - apply velocity_ok_init.
  - rewrite fold_left_app. simpl. destruct c; simpl.
    + apply velocity_ok_swim.
    + apply velocity_ok_update, IH.
Qed.
End PlayerFacts.

(** C3, as the specification has it, fails: no sequence of [swim()] and
    [update()] calls makes [velocity_up] negative.  The impulse 30 is a
    multiple of the decay [gravity / 4 = 2], so the decay stops at 0. *)
Lemma velocity_up_negative_unreachable :
  ~ exists (image : Surface.t) (calls : list player_call),
      (Player.velocity_up (player_run image calls) < 0)%Q.
Proof.
  intros (image & calls & Hneg).
  destruct (velocity_ok_run image calls) as [k [Hk Hv]].
  rewrite Hv in Hneg. unfold Qlt in Hneg. simpl in Hneg. lia.
Qed.

(** C3, amended.  After any sequence of [swim()] and [update()] calls
    [velocity_up] is one of 0, 2, 4, ..., 30, hence never below zero. *)
Theorem velocity_up_never_negative (image : Surface.t) (calls : list player_call) :
  (0 <= Player.velocity_up (player_run image calls) <= 30)%Q /\
  exists k : Z, (Player.velocity_up (player_run image calls) == inject_Z (2 * k))%Q.
Proof.
  destruct (velocity_ok_run image calls) as [k [Hk Hv]].
  split; [| eauto]. rewrite Hv. unfold Qle; simpl. lia.
Qed.

Section PlayerClamp.
Local Open Scope Z_scope.

Lemma Player_hitbox_edges (p : Player.t) :
  Rect.top (Player.get_hitbox p) = Qtrunc (Player.y p)
  /\ Rect.bottom (Player.get_hitbox p)
     = Qtrunc (Player.y p) + Surface.get_height (Player.surface p).
Proof. split; reflexivity. Qed.
End PlayerClamp.

(** C4.  For a player whose upward velocity is not negative (every
    reachable one) and whose image is at most 70 high (so that the floor
    position 570 is inside the 640 window): after one [update()] the bottom
    of the hitbox is at most 640 + 3, three being one tick of gravity
    rounded up; and if the top of the hitbox was below 0 when the call
    began and the bottom clamp did not fire, the top is not below 0 when it
    ends. *)
Theorem player_update_clamps (p : Player.t) :
  (0 <= Player.velocity_up p)%Q ->
  Surface.get_height (Player.surface p) <= 70 ->
  let p' := Player.update 640 8 p in
  Rect.bottom (Player.get_hitbox p') <= 640 + 3 /\
  (Rect.top (Player.get_hitbox p) < 0 ->
   ~ Rect.bottom (Player.get_hitbox p) > 640 ->
   0 <= Rect.top (Player.get_hitbox p')).
Proof.
  intros Hv Hh p'.
  destruct (Player_hitbox_edges p') as [Etop Ebot].
  destruct (Player_update_frame 640 8 p) as [_ Es].
  subst p'. rewrite Etop, Ebot, Es, Player_update_y. clear Etop Ebot Es.
  unfold clamped_y, clamped_velocity.
  destruct (Player_hitbox_edges p) as [-> ->].
  pose proof (Qtrunc_lt_succ (Player.y p)) as Hy.
  rewrite inject_Z_plus in Hy.
  set (t := Qtrunc (Player.y p)) in *.
  set (ph := Surface.get_height (Player.surface p)) in *.
  change (inject_Z 8 / 3)%Q with (8 # 3)%Q.
  unfold Qdiv. change (/ 2)%Q with (1 # 2)%Q.
  destruct (Z.gtb_spec (t + ph) 640) as [Hb | Hb].
  - split; [| lia].
    assert (Qtrunc (570 - Player.velocity_up p * (1 # 2) + (8 # 3)) <= 572); [| lia].
    apply Qtrunc_le; [lia |]. change (inject_Z (572 + 1)) with 573%Q. lra.
  - destruct (Z.ltb_spec t 0) as [Ht | Ht].
    + change (Qtrunc (0 - 0 * (1 # 2) + (8 # 3))) with 2. split; lia.
    + split; [| lia].
      assert (Qtrunc (Player.y p - Player.velocity_up p * (1 # 2) + (8 # 3)) <= t + 3);
        [| lia].
      apply Qtrunc_le; [lia |]. rewrite !inject_Z_plus.
      change (inject_Z 3) with 3%Q. change (inject_Z 1) with 1%Q in *. lra.
Qed.

Lemma player_update_clamps_witness :
  let p := Player.mk 250 (-5)%Q (Surface.mk (70, 70)) 0%Q in
  (0 <= Player.velocity_up p)%Q /\
  Surface.get_height (Player.surface p) <= 70 /\
  let p' := Player.update 640 8 p in
  Rect.bottom (Player.get_hitbox p') <= 640 + 3 /\
  (Rect.top (Player.get_hitbox p) < 0 ->
   ~ Rect.bottom (Player.get_hitbox p) > 640 ->
   0 <= Rect.top (Player.get_hitbox p')).
Proof.
  intros p.
  assert (Hv : (0 <= Player.velocity_up p)%Q) by (unfold Qle; simpl; lia).
  assert (Hh : Surface.get_height (Player.surface p) <= 70)
    by (unfold Surface.get_height; simpl; lia).
  split; [exact Hv |]. split; [exact Hh |].
  apply (player_update_clamps p Hv Hh).
Defined.

(** ** The loop of [Game.update] *)

(** Case analysis on the collision test of the loop body. *)
Ltac case_collision :=
  match goal with
  | |- context [Obstacle.detect_collision ?o ?p] =>
      destruct (Obstacle.detect_collision o p)
  end.

Section TickLoop.
Import Game.
Local Open Scope Z_scope.

#[local] Arguments Obstacle.detect_collision : simpl never.
#[local] Arguments Player.get_hitbox : simpl never.
#[local] Arguments Player.update : simpl never.
#[local] Arguments on_screen : simpl never.

Lemma for_each_run {A} (body : A -> M unit) (f : Game.t -> A -> Game.t)
    (l : list A) (g : Game.t) :
  (forall a g', body a g' = (Ok tt, f g' a)) ->
  for_each l body g = (Ok tt, fold_left f l g).
Proof.
  intros Hbody. revert g. induction l as [| a l IH]; intros g; [reflexivity |].
  simpl. unfold bind. rewrite Hbody. apply IH.
Qed.

Lemma update_body_run (r : ref) (g : Game.t) :
  update_body r g = (Ok tt, sweep (move g r)).
Proof.
  unfold update_body, move, sweep. cbn.
  case_collision; reflexivity.
Qed.

Lemma simplified_body_run (r : ref) (g : Game.t) :
  Simplified.update_body r g = (Ok tt, move g r).
Proof.
  unfold Simplified.update_body, move. cbn.
  case_collision; reflexivity.
Qed.

Lemma update_run (g : Game.t) :
  update g
  = (Ok tt, fold_left (fun g' r => sweep (move g' r)) (obstacles g) (begin_tick g)).
Proof.
  unfold update, update_player. cbn.
  rewrite (for_each_run _ (fun g' r => sweep (move g' r)));
    [reflexivity | apply update_body_run].
Qed.

Lemma simplified_update_run (g : Game.t) :
  Simplified.update g
  = (Ok tt, sweep (fold_left move (obstacles g) (begin_tick g))).
Proof.
  unfold Simplified.update, update_player. cbn. unfold bind at 1.
  rewrite (for_each_run _ move); [reflexivity | apply simplified_body_run].
Qed.

(** What [move] leaves alone. *)
Lemma move_requeue (q : list ref) (n : Z) (g : Game.t) (r : ref) :
  move (requeue q n g) r = requeue q n (move g r).
Proof.
  unfold move, requeue. cbn.
  case_collision; reflexivity.
Qed.

Lemma move_fields (g : Game.t) (r : ref) :
  obstacles (move g r) = obstacles g
  /\ obstacles_passed (move g r) = obstacles_passed g
  /\ heap (move g r) = alter Obstacle.update r (heap g).
Proof.
  unfold move. cbn. case_collision; repeat split.
Qed.

Lemma sweep_requeue (g : Game.t) :
  sweep g
  = let q := List.filter (fun r => on_screen (heap g !!! r)) (obstacles g) in
    requeue q (obstacles_passed g
               + (Z.of_nat (length (obstacles g)) - Z.of_nat (length q))) g.
Proof. reflexivity. Qed.

(** A filter absorbs an earlier, weaker one. *)
Lemma filter_absorbs {A} (P P' : A -> bool) (l : list A) :
  (forall a, P' a = true -> P a = true) ->
  List.filter P' (List.filter P l) = List.filter P' l.
Proof.
  intros Himp. induction l as [| a l IH]; [reflexivity |]. simpl.
  destruct (P a) eqn:Pa; simpl.
  - now rewrite IH.
  - destruct (P' a) eqn:P'a; [| exact IH].
    apply Himp in P'a. congruence.
Qed.

(** [update()] on one object of a well-formed store: any obstacle on
    screen afterwards was on screen before. *)
Lemma on_screen_before (h : list Obstacle.t) (r r' : ref) :
  heap_wf h ->
  on_screen (alter Obstacle.update r h !!! r') = true ->
  on_screen (h !!! r') = true.
Proof.
  intros Hwf. rewrite list_lookup_total_alter.
  case_decide as Hd; [destruct Hd as [<- Hlt] | trivial].
  pose proof (Forall_lookup_total_1 _ _ _ Hwf Hlt) as Hs. simpl in Hs.
  unfold on_screen, Obstacle.update, Obstacle.get_surface. cbn. rewrite Hs.
  rewrite !Z.gtb_ltb, !Z.ltb_lt. lia.
Qed.

Lemma heap_wf_alter (h : list Obstacle.t) (r : ref) :
  heap_wf h -> heap_wf (alter Obstacle.update r h).
Proof. intros Hwf. apply Forall_alter; [exact Hwf | trivial]. Qed.

Lemma heap_wf_move (g : Game.t) (r : ref) :
  heap_wf (heap g) -> heap_wf (heap (move g r)).
Proof.
  destruct (move_fields g r) as (_ & _ & ->). apply heap_wf_alter.
Qed.

Lemma heap_wf_moves (l : list ref) (g : Game.t) :
  heap_wf (heap g) -> heap_wf (heap (fold_left move l g)).
Proof.
  revert g. induction l as [| r l IH]; intros g Hwf; [exact Hwf |].
  simpl. apply IH, heap_wf_move, Hwf.
Qed.

Lemma sweep_of_requeue (q : list ref) (n : Z) (g : Game.t) :
  sweep (requeue q n g)
  = let q' := List.filter (fun r => on_screen (heap g !!! r)) q in
    requeue q' (n + (Z.of_nat (length q) - Z.of_nat (length q'))) g.
Proof. reflexivity. Qed.

(** The re-filtering before a move is absorbed by the one after it. *)
Lemma sweep_move_sweep (g : Game.t) (r : ref) :
  heap_wf (heap g) -> sweep (move (sweep g) r) = sweep (move g r).
Proof.
  intros Hwf. rewrite (sweep_requeue g). cbv zeta.
  rewrite move_requeue, sweep_of_requeue. cbv zeta.
  rewrite (sweep_requeue (move g r)). cbv zeta.
  destruct (move_fields g r) as (Eq & Ep & Eh). rewrite Eq, Ep.
  rewrite (filter_absorbs (fun r0 => on_screen (heap g !!! r0))
                          (fun r0 => on_screen (heap (move g r) !!! r0))).
  - f_equal. lia.
  - intros r'. rewrite Eh. apply on_screen_before, Hwf.
Qed.

(** The loop of [update] equals the loop without re-filtering followed by
    one filtering, whenever the loop runs at all. *)
Lemma refilter_once (l : list ref) (g : Game.t) :
  heap_wf (heap g) -> l <> [] ->
  fold_left (fun g' r => sweep (move g' r)) l g = sweep (fold_left move l g).
Proof.
  intros Hwf. induction l as [| r l IH] using rev_ind; [congruence |].
  intros _. rewrite !fold_left_app. simpl.
  destruct l as [| r0 l]; [reflexivity |].
  rewrite IH by discriminate.
  apply sweep_move_sweep, heap_wf_moves, Hwf.
Qed.

Lemma sweep_empty (g : Game.t) : obstacles g = [] -> sweep g = g.
Proof.
  intros E. unfold sweep. rewrite E. simpl. rewrite Z.add_0_r.
  destruct g; simpl in *; subst; reflexivity.
Qed.

Lemma update_simplified (g : Game.t) :
  heap_wf (heap g) -> update g = Simplified.update g.
Proof.
  intros Hwf. rewrite update_run, simplified_update_run. f_equal.
  destruct (obstacles g) as [| r l] eqn:E.
  - simpl. symmetry. apply sweep_empty. exact E.
  - apply refilter_once; [exact Hwf | discriminate].
Qed.
End TickLoop.

(** ** Whole ticks *)

Section Ticks.
Import Game.
Local Open Scope Z_scope.

#[local] Arguments Player.update : simpl never.

Lemma tick_closed_form (g : Game.t) :
  heap_wf (heap g) ->
  exec update g = sweep (fold_left move (obstacles g) (begin_tick g)).
Proof.
  intros Hwf. unfold exec. rewrite update_simplified by exact Hwf.
  now rewrite simplified_update_run.
Qed.

Lemma moves_fields (l : list ref) (g : Game.t) :
  obstacles (fold_left move l g) = obstacles g
  /\ obstacles_passed (fold_left move l g) = obstacles_passed g
  /\ heap (fold_left move l g)
     = fold_left (fun h r => alter Obstacle.update r h) l (heap g).
Proof.
  revert g. induction l as [| r l IH]; intros g; [repeat split |].
  simpl. destruct (IH (move g r)) as (-> & -> & ->).
  destruct (move_fields g r) as (-> & -> & ->). repeat split.
Qed.

Lemma tick_view (g : Game.t) :
  heap_wf (heap g) ->
  obstacle_view (exec update g) = obstacle_view_tick (obstacle_view g).
Proof.
  intros Hwf. rewrite tick_closed_form by exact Hwf.
  unfold obstacle_view, obstacle_view_tick, sweep. cbn.
  destruct (moves_fields (obstacles g) (begin_tick g)) as (-> & -> & ->).
  reflexivity.
Qed.

Lemma tick_heap_wf (g : Game.t) :
  heap_wf (heap g) -> heap_wf (heap (exec update g)).
Proof.
  intros Hwf. rewrite tick_closed_form by exact Hwf.
  change (heap (sweep ?x)) with (heap x). apply heap_wf_moves. exact Hwf.
Qed.

Lemma ticks_heap_wf (n : nat) (g : Game.t) :
  heap_wf (heap g) -> heap_wf (heap (ticks n g)).
Proof.
  intros Hwf. induction n as [| n IH]; [exact Hwf |].
  apply tick_heap_wf, IH.
Qed.

Lemma ticks_view (n : nat) (g : Game.t) :
  heap_wf (heap g) ->
  obstacle_view (ticks n g) = Nat.iter n obstacle_view_tick (obstacle_view g).
Proof.
  intros Hwf. induction n as [| n IH]; [reflexivity |].
  simpl. rewrite <- IH. apply tick_view, ticks_heap_wf, Hwf.
Qed.



Lemma tick_queue (g : Game.t) :
  heap_wf (heap g) ->
  obstacles (exec update g)
  = List.filter (fun r => on_screen (heap (exec update g) !!! r)) (obstacles g).
Proof.
  intros Hwf. pose proof (tick_view g Hwf) as E.
  unfold obstacle_view, obstacle_view_tick in E. injection E as Eh Eq _.
  rewrite Eq, Eh. reflexivity.
Qed.

Lemma tick_accounted (g : Game.t) :
  heap_wf (heap g) -> accounted (exec update g) = accounted g.
Proof.
  intros Hwf. pose proof (tick_view g Hwf) as E.
  unfold obstacle_view, obstacle_view_tick in E. injection E as _ Eq Ep.
  unfold accounted. rewrite Ep, Eq. lia.
Qed.

Lemma tick_queue_shrinks (g : Game.t) :
  heap_wf (heap g) ->
  (length (obstacles (exec update g)) <= length (obstacles g))%nat.
Proof. intros Hwf. rewrite tick_queue by exact Hwf. apply filter_length_le. Qed.



End Ticks.





(** C2, as the specification has it, fails: after 238 ticks the obstacle
    spawned at 1200 stands at [x = 10]; its right edge, at 90, still exceeds
    9, so it is in the queue and nothing has been counted. *)
Lemma still_queued_after_238_ticks :
  let g := ticks 238 (Game.exec (Game.add_obstacle 0)
                                (Game.init (Surface.mk (70, 70)))) in
  Game.obstacles g = [0%nat] /\
  Game.obstacles_passed g = 0 /\
  Obstacle.x (Game.heap g !!! 0%nat) = 10 /\
  ~ (Game.obstacles g = [] /\ Game.obstacles_passed g = 1).
Proof.
  vm_compute. repeat split; intros [H _]; discriminate H.
Qed.

(** C2, amended.  With any player image, one obstacle spawned at 1200 with
    offset 0 on the 640 screen is still queued and uncounted after 238 and
    after 254 calls of [update()]; the 255th removes it and
    [obstacles_passed] becomes 1. *)
Theorem removed_after_255_ticks (image : Surface.t) :
  let g := Game.exec (Game.add_obstacle 0) (Game.init image) in
  (Game.obstacles (ticks 238 g) = [0%nat] /\ Game.obstacles_passed (ticks 238 g) = 0)
  /\ (Game.obstacles (ticks 254 g) = [0%nat] /\ Game.obstacles_passed (ticks 254 g) = 0)
  /\ (Game.obstacles (ticks 255 g) = [] /\ Game.obstacles_passed (ticks 255 g) = 1).
Proof.
  intros g.
  assert (Hwf : heap_wf (Game.heap g)) by (vm_compute; repeat constructor).
  assert (Hq : forall n h q p,
             Nat.iter n obstacle_view_tick (obstacle_view g) = (h, q, p) ->
             Game.obstacles (ticks n g) = q /\ Game.obstacles_passed (ticks n g) = p).
  { intros n h q p E. rewrite <- (ticks_view n g Hwf) in E.
    unfold obstacle_view in E. injection E as _ -> ->. split; reflexivity. }
  split; [| split]; eapply Hq; vm_compute; reflexivity.
Qed.

(** ** Queries *)

Section Queries.
Import Game.
Local Open Scope Z_scope.

#[local] Arguments Obstacle.get_hitbox : simpl never.
#[local] Arguments Player.get_hitbox : simpl never.

Lemma read_only_ret {A} (a : A) : read_only (ret a).
Proof. intros g. reflexivity. Qed.

Lemma read_only_raise {A} (e : exn) : read_only (@raise A e).
Proof. intros g. reflexivity. Qed.

Lemma read_only_gets {A} (f : Game.t -> A) : read_only (gets f).
Proof. intros g. reflexivity. Qed.

Lemma read_only_bind {A B} (m : M A) (k : A -> M B) :
  read_only m -> (forall a, read_only (k a)) -> read_only (bind m k).
Proof.
  intros Hm Hk g. specialize (Hm g). unfold exec, bind in *.
  destruct (m g) as [[a | e] g']; simpl in Hm; subst g'; [apply Hk | reflexivity].
Qed.

Lemma read_only_for_fold {A S} (body : A -> S -> M S) (l : list A) (s : S) :
  (forall a s', read_only (body a s')) -> read_only (for_fold l s body).
Proof.
  intros Hbody. revert s. induction l as [| a l IH]; intros s; simpl.
  - apply read_only_ret.
  - apply read_only_bind; [apply Hbody | exact IH].
Qed.

Lemma read_only_deref (r : ref) : read_only (deref r).
Proof. apply read_only_gets. Qed.

Lemma read_only_attr {A} (f : Obstacle.t -> A) (obstacle : option ref) :
  read_only (attr f obstacle).
Proof.
  destruct obstacle as [r |]; simpl; [| apply read_only_raise].
  apply read_only_bind; [apply read_only_deref | intros; apply read_only_ret].
Qed.

(** Steps through a method built from reading primitives. *)
Ltac read_only_steps :=
  repeat first
    [ apply read_only_ret | apply read_only_raise | apply read_only_gets
    | apply read_only_deref | apply read_only_attr
    | apply read_only_for_fold; intros
    | apply read_only_bind; [| intros] ].

Lemma read_only_next_obstacle_body (pp : Z) (r : ref) (c : option (ref * Z)) :
  read_only (next_obstacle_body pp r c).
Proof.
  unfold next_obstacle_body. apply read_only_bind; [apply read_only_deref |].
  intros o. destruct (_ >? pp); [| apply read_only_ret].
  destruct c as [[b p] |]; [destruct (p >? _); apply read_only_ret |].
  read_only_steps.
Qed.

Lemma read_only_get_next_obstacle : read_only get_next_obstacle.
Proof.
  unfold get_next_obstacle.
  apply read_only_bind; [apply read_only_gets | intros p].
  apply read_only_bind; [apply read_only_gets | intros obs].
  apply read_only_bind; [| intros; apply read_only_ret].
  apply read_only_for_fold. intros. apply read_only_next_obstacle_body.
Qed.

Lemma read_only_distance_to_obstacle (obstacle : option ref) :
  read_only (distance_to_obstacle obstacle).
Proof. unfold distance_to_obstacle. read_only_steps. Qed.

Lemma read_only_height_to_obstacle (obstacle : option ref) :
  read_only (height_to_obstacle obstacle).
Proof. unfold height_to_obstacle. read_only_steps. Qed.

Lemma read_only_calculate_fitness : read_only calculate_fitness.
Proof.
  unfold calculate_fitness.
  apply read_only_bind; [apply read_only_get_next_obstacle | intros].
  apply read_only_bind; [apply read_only_distance_to_obstacle | intros].
  apply read_only_bind; [apply read_only_height_to_obstacle | intros].
  read_only_steps.
Qed.

Lemma read_only_discard {A} (m : M A) : read_only m -> read_only (discard m).
Proof.
  intros Hm. apply read_only_bind; [exact Hm | intros; apply read_only_ret].
Qed.

(** *** What [get_next_obstacle] computes *)

Lemma for_fold_run {A S} (body : A -> S -> M S) (f : S -> A -> S)
    (l : list A) (s : S) (g : Game.t) :
  (forall a s', body a s' g = (Ok (f s' a), g)) ->
  for_fold l s body g = (Ok (fold_left f l s), g).
Proof.
  intros Hbody. revert s. induction l as [| a l IH]; intros s; [reflexivity |].
  simpl. unfold bind. rewrite Hbody. apply IH.
Qed.

Lemma next_obstacle_body_run (g : Game.t) (r : ref) (c : option (ref * Z)) :
  next_obstacle_body (player_pos g) r c g = (Ok (next_obstacle_step g c r), g).
Proof.
  unfold next_obstacle_body, next_obstacle_step, obstacle_pos. cbn.
  destruct (_ >? player_pos g); [| reflexivity].
  destruct c as [[b p] |]; [| reflexivity].
  destruct (p >? _); reflexivity.
Qed.

Lemma get_next_obstacle_run (g : Game.t) :
  get_next_obstacle g
  = (Ok (option_map fst (fold_left (next_obstacle_step g) (obstacles g) None)), g).
Proof.
  unfold get_next_obstacle. cbn. fold (player_pos g). unfold bind.
  rewrite (for_fold_run _ (next_obstacle_step g));
    [reflexivity | intros; apply next_obstacle_body_run].
Qed.

(** Once a candidate is held the loop never goes back to [None]. *)
Lemma scan_keeps_candidate (g : Game.t) (l : list ref) (c : ref * Z) :
  fold_left (next_obstacle_step g) l (Some c) <> None.
Proof.
  revert c. induction l as [| r l IH]; intros [b p]; simpl; [discriminate |].
  unfold next_obstacle_step at 2.
  destruct (_ >? _); [destruct (_ >? _) |]; apply IH.
Qed.

Lemma scan_none (g : Game.t) (l : list ref) :
  fold_left (next_obstacle_step g) l None = None
  <-> forall r, In r l -> ~ ahead g r.
Proof.
  unfold ahead. induction l as [| r l IH]; simpl; [tauto |].
  unfold next_obstacle_step at 2.
  destruct (Z.gtb_spec (obstacle_pos g r) (player_pos g)) as [Hr | Hr].
  - split.
    + intros H. now apply scan_keeps_candidate in H.
    + intros H. exfalso. apply (H r); [now left | lia].
  - rewrite IH. split.
    + intros H r' [<- | Hin]; [lia | now apply H].
    + intros H r' Hin. apply H. now right.
Qed.

(** Whatever the loop returns was taken from the queue, ahead of the
    player. *)
Lemma scan_result (g : Game.t) (P : ref -> Prop) (l : list ref)
    (c : option (ref * Z)) :
  (forall b p, c = Some (b, p) -> P b) ->
  (forall r, In r l -> ahead g r -> P r) ->
  forall b p, fold_left (next_obstacle_step g) l c = Some (b, p) -> P b.
Proof.
  revert c. induction l as [| r l IH]; intros c Hc Hl; simpl; [exact Hc |].
  apply IH; [| intros r' Hin; apply Hl; now right].
  unfold next_obstacle_step, ahead in *.
  destruct (Z.gtb_spec (obstacle_pos g r) (player_pos g)) as [Hr | Hr];
    [| exact Hc].
  assert (Pr : P r) by (apply Hl; [now left | lia]).
  destruct c as [[b0 p0] |].
  - destruct (p0 >? _); [| exact Hc]. intros b p E. now injection E as <- _.
  - intros b p E. now injection E as <- _.
Qed.
End Queries.

(** C10.  The four queries leave the session as it was: player, obstacle
    objects, queue, [obstacles_passed], [distance_traveled] and state; this
    holds as well when a query raises. *)
Theorem queries_leave_session_unchanged (g : Game.t) (obstacle : option ref) :
  Game.exec Game.get_next_obstacle g = g /\
  Game.exec (Game.distance_to_obstacle obstacle) g = g /\
  Game.exec (Game.height_to_obstacle obstacle) g = g /\
  Game.exec Game.calculate_fitness g = g.
Proof.
  repeat split.
  - apply read_only_get_next_obstacle.
  - apply read_only_distance_to_obstacle.
  - apply read_only_height_to_obstacle.
  - apply read_only_calculate_fitness.
Qed.

(** C7.  [get_next_obstacle()] never raises; it returns [None] exactly
    when no obstacle of the queue has the center of its top rectangle ahead
    of the center of the player's hitbox (so also on the empty queue);
    [calculate_fitness()] then raises; and when it returns an obstacle, that
    obstacle is in the queue and ahead, and [calculate_fitness()] returns
    [distance_traveled - (distance_to_obstacle + abs(height_to_obstacle))]
    for it. *)
Theorem next_obstacle_none_and_fitness (g : Game.t) :
  (exists o, Game.eval Game.get_next_obstacle g = Ok o)
  /\ (Game.eval Game.get_next_obstacle g = Ok None
      <-> forall r, In r (Game.obstacles g) -> ~ ahead g r)
  /\ (Game.eval Game.get_next_obstacle g = Ok None ->
      Game.eval Game.calculate_fitness g = Raise AttributeError)
  /\ (forall r, Game.eval Game.get_next_obstacle g = Ok (Some r) ->
      In r (Game.obstacles g) /\ ahead g r /\
      exists d h,
        Game.eval (Game.distance_to_obstacle (Some r)) g = Ok d /\
        Game.eval (Game.height_to_obstacle (Some r)) g = Ok h /\
        Game.eval Game.calculate_fitness g
        = Ok (Game.distance_traveled g - (inject_Z d + Qabs h))%Q).
Proof.
  unfold Game.eval, Game.calculate_fitness, Game.bind.
  rewrite get_next_obstacle_run. cbn [fst].
  destruct (fold_left (next_obstacle_step g) (Game.obstacles g) None)
    as [[b p] |] eqn:E; cbn [option_map fst].
  - split; [eauto |]. split; [| split; [discriminate |]].
    + split; [discriminate |]. intros H. apply scan_none in H. congruence.
    + intros r Hr. injection Hr as <-.
      split; [| split].
      * refine (scan_result g (fun b => In b (Game.obstacles g))
                  (Game.obstacles g) None _ _ b p E); [discriminate | tauto].
      * refine (scan_result g (ahead g) (Game.obstacles g) None _ _ b p E);
          [discriminate | tauto].
      * eexists. eexists. repeat split.
  - split; [eauto |]. split; [| split; [reflexivity | discriminate]].
    split; [intros _; now apply scan_none | reflexivity].
Qed.

(** ** The state of the session *)

Section SessionState.
Import Game.
Local Open Scope Z_scope.

#[local] Arguments Obstacle.detect_collision : simpl never.
#[local] Arguments Player.get_hitbox : simpl never.
#[local] Arguments Player.update : simpl never.

Lemma state_moves (l : list ref) (g : Game.t) :
  state (fold_left (fun g' r => sweep (move g' r)) l g) = state g
  \/ state (fold_left (fun g' r => sweep (move g' r)) l g) = OVER.
Proof.
  revert g. induction l as [| r l IH]; intros g; [now left |].
  simpl. destruct (IH (sweep (move g r))) as [-> | ->]; [| now right].
  change (state (sweep ?x)) with (state x).
  unfold move. case_collision; [now right | now left].
Qed.

Lemma state_update (g : Game.t) :
  state (exec update g) = state g \/ state (exec update g) = OVER.
Proof.
  unfold exec. rewrite update_run. cbn [snd].
  exact (state_moves (obstacles g) (begin_tick g)).
Qed.

Lemma state_loop (l : list ref) (g : Game.t) :
  state (fold_left (fun g' r => sweep (move g' r)) l g) = OVER
  <-> state g = OVER
      \/ exists l1 r l2,
           l = l1 ++ r :: l2 /\
           collides_at (fold_left (fun g' r => sweep (move g' r)) l1 g) r = true.
Proof.
  revert g. induction l as [| a l IH]; intros g; simpl.
  - split; [now left | intros [H | (l1 & r & l2 & E & _)]; [exact H |]].
    now destruct l1.
  - rewrite IH. change (state (sweep ?x)) with (state x).
    assert (Ha : state (move g a) = OVER <-> state g = OVER \/ collides_at g a = true).
    { unfold move, collides_at. cbn. case_collision; cbn; [tauto |].
      split; [now left | intros [H | H]; [exact H | discriminate]]. }
    rewrite Ha. split.
    + intros [[H | H] | (l1 & r & l2 & -> & H)].
      * now left.
      * right. exists [], a, l. now split.
      * right. exists (a :: l1), r, l2. now split.
    + intros [H | (l1 & r & l2 & E & H)]; [now left; left |].
      destruct l1 as [| a' l1]; simpl in E; injection E as -> ->.
      * left. now right.
      * right. exists l1, r, l2. now split.
Qed.

Lemma state_update_over (g : Game.t) :
  state (exec update g) = OVER
  <-> state g = OVER
      \/ exists l1 r l2,
           obstacles g = l1 ++ r :: l2 /\
           collides_at (exec (for_each l1 update_body) (begin_tick g)) r = true.
Proof.
  unfold exec at 1. rewrite update_run. cbn [snd]. rewrite state_loop.
  change (state (begin_tick g)) with (state g).
  assert (E : forall l1, exec (for_each l1 update_body) (begin_tick g)
                         = fold_left (fun g' r => sweep (move g' r)) l1 (begin_tick g)).
  { intros l1. unfold exec.
    now rewrite (for_each_run _ (fun g' r => sweep (move g' r)) l1 _ update_body_run). }
  split; (intros [H | (l1 & r & l2 & Hl & Hc)]; [now left | right]);
    exists l1, r, l2; (split; [exact Hl |]); [rewrite E | rewrite <- E]; exact Hc.
Qed.

Lemma state_add_obstacle (offset : Z) (g : Game.t) :
  state (exec (add_obstacle offset) g) = state g.
Proof.
  unfold exec, add_obstacle. cbn.
  destruct (Obstacle.init _ _); reflexivity.
Qed.

Lemma state_step (o : op) (g : Game.t) :
  state (exec (run_op o) g) = state g
  \/ (o = OpInitGame /\ state (exec (run_op o) g) = RUNNING)
  \/ (o = OpUpdate /\ state (exec (run_op o) g) = OVER).
Proof.
  destruct o; simpl run_op.
  - right. left. split; reflexivity.
  - destruct (state_update g) as [H | H]; [now left | right; right; now split].
  - left. apply state_add_obstacle.
  - now left.
  - left. now rewrite (read_only_discard _ read_only_get_next_obstacle).
  - left. now rewrite (read_only_discard _ (read_only_distance_to_obstacle _)).
  - left. now rewrite (read_only_discard _ (read_only_height_to_obstacle _)).
  - left. now rewrite (read_only_discard _ read_only_calculate_fitness).
  - left. now rewrite (read_only_discard _ (read_only_gets _)).
Qed.

Lemma state_run_not_paused (ops : list op) (g : Game.t) :
  state g <> PAUSED -> state (run ops g) <> PAUSED.
Proof.
  unfold run. revert g. induction ops as [| o ops IH]; intros g Hg; [exact Hg |].
  simpl. apply IH.
  destruct (state_step o g) as [-> | [[_ ->] | [_ ->]]];
    [exact Hg | discriminate | discriminate].
Qed.
End SessionState.

(** C9, as the specification has it, fails: [update()] does not look at
    the state before it sets OVER.  With a 70 by 70 player image, one
    obstacle and 176 ticks the session is still NOT_STARTED, and the next
    [update()] takes it to OVER though it never was RUNNING. *)
Lemma over_without_running :
  let g := run (OpAddObstacle 0 :: repeat OpUpdate 176)
               (Game.init (Surface.mk (70, 70))) in
  Game.state g = NOT_STARTED /\
  Game.state (Game.exec (run_op OpUpdate) g) = OVER.
Proof. vm_compute. split; reflexivity. Qed.

(** C9, amended.  An operation leaves the state as it is, or it is
    [init_game()] and the state becomes RUNNING, or it is [update()] and the
    state becomes OVER; in both cases whatever the state was before.
    [update()] ends in OVER exactly when the state was OVER already or the
    collision test of some queued obstacle succeeded during the tick.  So
    no sequence of operations on a new session enters PAUSED. *)
Theorem session_state_transitions (o : op) (g : Game.t) (ops : list op)
    (image : Surface.t) :
  (Game.state (Game.exec (run_op o) g) = Game.state g
   \/ (o = OpInitGame /\ Game.state (Game.exec (run_op o) g) = RUNNING)
   \/ (o = OpUpdate /\ Game.state (Game.exec (run_op o) g) = OVER))
  /\ Game.state (Game.exec Game.init_game g) = RUNNING
  /\ (Game.state (Game.exec Game.update g) = OVER
      <-> Game.state g = OVER
          \/ exists l1 r l2,
               Game.obstacles g = l1 ++ r :: l2 /\
               collides_at (Game.exec (Game.for_each l1 Game.update_body)
                                      (begin_tick g)) r = true)
  /\ Game.state (run ops (Game.init image)) <> PAUSED.
Proof.
  split; [apply state_step |]. split; [reflexivity |].
  split; [apply state_update_over |].
  apply state_run_not_paused. discriminate.
Qed.

(** ** The nearest obstacle *)

Section NextObstacle.
Import Game.
Local Open Scope Z_scope.

(** On a queue in the order of the positions the loop of
    [get_next_obstacle] finds what the specification asks for. *)
Lemma scan_sorted (g : Game.t) (l : list ref) (c : option (ref * Z)) :
  StronglySorted (fun a b => obstacle_pos g a <= obstacle_pos g b) l ->
  (forall b p, c = Some (b, p) ->
     p = obstacle_pos g b /\ forall r, In r l -> obstacle_pos g b <= obstacle_pos g r) ->
  option_map fst (fold_left (next_obstacle_step g) l c)
  = closest_ahead (obstacle_pos g) (player_pos g) l (option_map fst c).
Proof.
  revert c. induction l as [| r l IH]; intros c Hs Hc; [reflexivity |].
  apply StronglySorted_inv in Hs. destruct Hs as [Hs Hr].
  rewrite Forall_forall in Hr.
  simpl. unfold next_obstacle_step at 2.
  destruct (Z.gtb_spec (obstacle_pos g r) (player_pos g)) as [Ha | Ha].
  - destruct c as [[b p] |]; simpl.
    + destruct (Hc b p eq_refl) as [-> Hb].
      pose proof (Hb r (or_introl eq_refl)) as Hbr.
      destruct (Z.gtb_spec (obstacle_pos g b) (obstacle_pos g r)); [lia |].
      apply (IH (Some (b, obstacle_pos g b)) Hs).
      intros b' p' E. injection E as <- <-. split; [reflexivity |].
      intros r' Hin. apply Hb. now right.
    + apply (IH (Some (r, obstacle_pos g r)) Hs).
      intros b' p' E. injection E as <- <-. split; [reflexivity |].
      intros r' Hin. apply Hr, list_elem_of_In, Hin.
  - apply IH; [exact Hs |].
    intros b p E. destruct (Hc b p E) as [-> Hb]. split; [reflexivity |].
    intros r' Hin. apply Hb. now right.
Qed.

Lemma get_next_obstacle_sorted (g : Game.t) :
  queue_sorted g ->
  eval get_next_obstacle g
  = Ok (closest_ahead (obstacle_pos g) (player_pos g) (obstacles g) None).
Proof.
  intros Hs. unfold eval. rewrite get_next_obstacle_run. cbn [fst]. f_equal.
  apply (scan_sorted g (obstacles g) None Hs). discriminate.
Qed.
End NextObstacle.

(** Outside the sessions of the program the order of the queue matters.
    On a hand-built queue with obstacles at 1000, 500 and 700 in this
    order, all ahead of the player, [get_next_obstacle()] returns the third,
    whose center is at 740, and not the second, whose center at 540 is the
    smallest: [closest_pos] keeps the position of the first match, so every
    later obstacle nearer than the first one replaces the candidate.  No
    session of the program has such a queue (see below), so the game never
    shows this. *)
Theorem get_next_obstacle_not_closest :
  let g := unordered_session in
  player_pos g = 285 /\
  map (obstacle_pos g) (Game.obstacles g) = [1040; 540; 740] /\
  closest_ahead (obstacle_pos g) (player_pos g) (Game.obstacles g) None
  = Some 1%nat /\
  Game.eval Game.get_next_obstacle g = Ok (Some 2%nat).
Proof. vm_compute. repeat split. Qed.

(** ** Reachable sessions *)

Section Reachable.
Import Game.
Local Open Scope Z_scope.

Lemma Obstacle_init_built (screen_height offset : Z) (o : Obstacle.t) :
  Obstacle.init screen_height offset = Ok o ->
  obstacle_built o /\ Obstacle.x o = 1200.
Proof.
  unfold Obstacle.init, Obstacle.init_surface, Surface.new. cbn [fst snd].
  repeat match goal with
         | |- context [if ?c then _ else _] => destruct c
         end; try discriminate.
  intros E. injection E as <-. unfold obstacle_built. cbn. repeat split. lia.
Qed.

Lemma obstacle_built_update (o : Obstacle.t) :
  obstacle_built o -> obstacle_built (Obstacle.update o).
Proof.
  unfold obstacle_built, Obstacle.update. cbn. intros (Hs & Hw & Hx).
  repeat split; [assumption | assumption | lia].
Qed.

Lemma built_heap_wf (h : list Obstacle.t) : Forall obstacle_built h -> heap_wf h.
Proof.
  intros H. eapply Forall_impl; [exact H |]. intros o Ho. apply Ho.
Qed.

(** Moving every obstacle of a duplicate-free list once. *)
Lemma moved_lookup (l : list ref) (h : list Obstacle.t) (r : ref) :
  NoDup l -> Forall (fun r0 => (r0 < length h)%nat) l ->
  fold_left (fun h0 r0 => alter Obstacle.update r0 h0) l h !!! r
  = if decide (r ∈ l) then Obstacle.update (h !!! r) else h !!! r.
Proof.
  revert h. induction l as [| a l IH]; intros h Hnd Hin; simpl.
  - destruct (decide (r ∈ [])) as [H | H]; [inversion H | reflexivity].
  - apply NoDup_cons in Hnd. destruct Hnd as [Ha Hnd].
    apply Forall_cons in Hin. destruct Hin as [Hlt Hin].
    rewrite IH; [| exact Hnd | now rewrite length_alter].
    rewrite list_lookup_total_alter.
    destruct (decide (r = a)) as [-> | Hne].
    + destruct (decide (a ∈ l)) as [H | _]; [contradiction |].
      destruct (decide (a ∈ a :: l)) as [_ | H]; [| exfalso; apply H; left].
      destruct (decide (a = a /\ (a < length h)%nat)) as [_ | H];
        [reflexivity | exfalso; apply H; now split].
    + destruct (decide (a = r /\ (a < length h)%nat)) as [[E _] | _];
        [congruence |].
      destruct (decide (r ∈ l)) as [H | H];
        destruct (decide (r ∈ a :: l)) as [H' | H']; try reflexivity.
      * exfalso. apply H'. now right.
      * apply elem_of_cons in H'. destruct H' as [E | E]; [congruence | contradiction].
Qed.

Lemma moved_built (l : list ref) (h : list Obstacle.t) :
  Forall obstacle_built h ->
  Forall obstacle_built (fold_left (fun h0 r0 => alter Obstacle.update r0 h0) l h).
Proof.
  revert h. induction l as [| a l IH]; intros h Hb; [exact Hb |].
  simpl. apply IH, Forall_alter; [exact Hb |].
  intros o _. apply obstacle_built_update.
Qed.

Lemma moved_length (l : list ref) (h : list Obstacle.t) :
  length (fold_left (fun h0 r0 => alter Obstacle.update r0 h0) l h) = length h.
Proof.
  revert h. induction l as [| a l IH]; intros h; [reflexivity |].
  simpl. rewrite IH. apply length_alter.
Qed.

Lemma StronglySorted_on {A} (R R' : A -> A -> Prop) (l : list A) :
  (forall a b, a ∈ l -> b ∈ l -> R a b -> R' a b) ->
  StronglySorted R l -> StronglySorted R' l.
Proof.
  induction l as [| a l IH]; intros Himp Hs; [constructor |].
  apply StronglySorted_cons in Hs. destruct Hs as [Ha Hs].
  apply StronglySorted_cons. split.
  - rewrite Forall_forall in *. intros b Hb.
    apply Himp; [left | now right | now apply Ha].
  - apply IH; [| exact Hs]. intros x y Hx Hy. apply Himp; now right.
Qed.

Lemma StronglySorted_filter_bool {A} (R : A -> A -> Prop) (P : A -> bool)
    (l : list A) :
  StronglySorted R l -> StronglySorted R (List.filter P l).
Proof.
  induction l as [| a l IH]; intros Hs; [constructor |].
  apply StronglySorted_cons in Hs. destruct Hs as [Ha Hs]. simpl.
  destruct (P a); [| now apply IH].
  apply StronglySorted_cons. split; [| now apply IH].
  rewrite Forall_forall in *. intros b Hb. apply Ha.
  apply list_elem_of_In in Hb. apply filter_In in Hb.
  now apply list_elem_of_In.
Qed.

Lemma filter_bool_sub {A} (P : A -> bool) (l : list A) (a : A) :
  a ∈ List.filter P l -> a ∈ l.
Proof.
  rewrite !list_elem_of_In, filter_In. tauto.
Qed.

Lemma NoDup_filter_bool {A} (P : A -> bool) (l : list A) :
  NoDup l -> NoDup (List.filter P l).
Proof.
  induction l as [| a l IH]; intros Hnd; [constructor |].
  apply NoDup_cons in Hnd. destruct Hnd as [Ha Hnd]. simpl.
  destruct (P a); [| now apply IH].
  apply NoDup_cons. split; [| now apply IH].
  intros H. apply Ha. eapply filter_bool_sub, H.
Qed.

Lemma session_ok_update (g : Game.t) : session_ok g -> session_ok (exec update g).
Proof.
  intros [Hb Hr Hd Hs].
  pose proof (tick_view g (built_heap_wf _ Hb)) as E.
  unfold obstacle_view, obstacle_view_tick in E. injection E as Eh Eq _.
  split; rewrite ?Eq, ?Eh.
  - apply moved_built, Hb.
  - rewrite moved_length. rewrite Forall_forall in *.
    intros r Hin. apply Hr. eapply filter_bool_sub, Hin.
  - apply NoDup_filter_bool, Hd.
  - apply StronglySorted_filter_bool.
    refine (StronglySorted_on _ _ _ _ Hs). intros a b Ha Hb' Hab.
    rewrite !moved_lookup by assumption.
    destruct (decide (a ∈ obstacles g)) as [_ | H]; [| contradiction].
    destruct (decide (b ∈ obstacles g)) as [_ | H]; [| contradiction].
    rewrite Forall_forall in Hr.
    pose proof (Forall_lookup_total_1 _ _ _ Hb (Hr a Ha)) as (Sa & _).
    pose proof (Forall_lookup_total_1 _ _ _ Hb (Hr b Hb')) as (Sb & _).
    unfold Obstacle.update. cbn. lia.
Qed.

Lemma session_ok_add_obstacle (offset : Z) (g : Game.t) :
  session_ok g -> session_ok (exec (add_obstacle offset) g).
Proof.
  intros [Hb Hr Hd Hs]. unfold exec, add_obstacle. cbn.
  destruct (Obstacle.init _ _) as [o | e] eqn:E; cbn;
    [| split; assumption].
  apply Obstacle_init_built in E. destruct E as [Ho Hx].
  rewrite Forall_forall in Hr.
  assert (Hold : forall r, r ∈ obstacles g ->
                 (heap g ++ [o]) !!! r = heap g !!! r).
  { intros r Hin. apply lookup_total_app_l, Hr, Hin. }
  assert (Hnew : (heap g ++ [o]) !!! length (heap g) = o)
    by now apply list_lookup_total_middle.
  split; cbn.
  - apply Forall_app. split; [exact Hb | now constructor].
  - rewrite length_app. simpl. apply Forall_app. split.
    + rewrite Forall_forall. intros r Hin. specialize (Hr r Hin). lia.
    + constructor; [lia | constructor].
  - apply NoDup_app. split; [exact Hd |]. split; [| apply NoDup_singleton].
    intros r Hin Hr'. apply list_elem_of_singleton in Hr'. subst r.
    specialize (Hr _ Hin). lia.
  - apply StronglySorted_app. split; [| split].
    + intros a b Ha Hb'. apply list_elem_of_singleton in Hb'. subst b.
      rewrite Hnew, Hold, Hx by exact Ha.
      apply (Forall_lookup_total_1 _ _ _ Hb (Hr a Ha)).
    + refine (StronglySorted_on _ _ _ _ Hs). intros a b Ha Hb' Hab.
      now rewrite !Hold.
    + repeat constructor.
Qed.

Lemma session_ok_step (o : op) (g : Game.t) :
  session_ok g -> session_ok (exec (run_op o) g).
Proof.
  intros Hok. destruct o; simpl run_op.
  - destruct Hok. split; assumption.
  - apply session_ok_update, Hok.
  - apply session_ok_add_obstacle, Hok.
  - destruct Hok. split; assumption.
  - now rewrite (read_only_discard _ read_only_get_next_obstacle).
  - now rewrite (read_only_discard _ (read_only_distance_to_obstacle _)).
  - now rewrite (read_only_discard _ (read_only_height_to_obstacle _)).
  - now rewrite (read_only_discard _ read_only_calculate_fitness).
  - now rewrite (read_only_discard _ (read_only_gets _)).
Qed.

Lemma session_ok_init (image : Surface.t) : session_ok (init image).
Proof. split; cbn; constructor. Qed.

Lemma session_ok_reachable (g : Game.t) : reachable g -> session_ok g.
Proof.
  intros (image & ops & ->). unfold run.
  generalize (session_ok_init image). generalize (init image).
  induction ops as [| o ops IH]; intros g Hok; [exact Hok |].
  simpl. apply IH, session_ok_step, Hok.
Qed.

Lemma session_ok_sorted (g : Game.t) : session_ok g -> queue_sorted g.
Proof.
  intros [Hb Hr Hd Hs]. unfold queue_sorted.
  refine (StronglySorted_on _ _ _ _ Hs). intros a b Ha Hb' Hab.
  rewrite Forall_forall in Hr.
  pose proof (Forall_lookup_total_1 _ _ _ Hb (Hr a Ha)) as (_ & Wa & _).
  pose proof (Forall_lookup_total_1 _ _ _ Hb (Hr b Hb')) as (_ & Wb & _).
  unfold obstacle_pos, Obstacle.get_hitbox, Rect.centerx, Rect.new.
  cbn [fst snd Rect.x Rect.w]. rewrite !Qtrunc_inject_Z.
  unfold Surface.get_width, Surface.get_size in *. rewrite Wa, Wb. lia.
Qed.

(** The queue of the example above is not one of a session. *)
Lemma unordered_session_unreachable : ~ reachable unordered_session.
Proof.
  intros Hg. apply session_ok_reachable in Hg. destruct Hg as [_ _ _ Hs].
  apply StronglySorted_inv in Hs. destruct Hs as [_ Hs].
  apply Forall_inv in Hs. vm_compute in Hs. now apply Hs.
Qed.

(** What [closest_ahead] returns, in the words of the specification:
    nothing when no obstacle is ahead; otherwise an obstacle of the queue
    that is ahead, nearer than every obstacle ahead that comes before it in
    the queue and at least as near as every one that comes after it. *)
Lemma closest_ahead_from (pos : ref -> Z) (player : Z) (l done : list ref)
    (best : option ref) :
  match best with
  | None => forall r, In r done -> ~ pos r > player
  | Some b =>
      exists before after, done = before ++ b :: after /\ pos b > player
        /\ (forall r, In r before -> pos r > player -> pos b < pos r)
        /\ (forall r, In r after -> pos r > player -> pos b <= pos r)
  end ->
  match closest_ahead pos player l best with
  | None => forall r, In r (done ++ l) -> ~ pos r > player
  | Some b =>
      exists before after, done ++ l = before ++ b :: after /\ pos b > player
        /\ (forall r, In r before -> pos r > player -> pos b < pos r)
        /\ (forall r, In r after -> pos r > player -> pos b <= pos r)
  end.
Proof.
  revert done best. induction l as [| r l IH]; intros done best Hinv.
  - simpl. rewrite app_nil_r. exact Hinv.
  - simpl closest_ahead.
    replace (done ++ r :: l) with ((done ++ [r]) ++ l)
      by (rewrite <- app_assoc; reflexivity).
    apply IH. clear IH.
    destruct (Z.gtb_spec (pos r) player) as [Ha | Ha].
    + destruct best as [b |].
      * destruct Hinv as (before & after & -> & Hb & Hbefore & Hafter).
        destruct (Z.gtb_spec (pos b) (pos r)) as [Hbr | Hbr].
        -- exists (before ++ b :: after), []. split; [reflexivity |].
           split; [lia |]. split; [| intros r' []].
           intros r' Hin Hr'. apply in_app_or in Hin.
           destruct Hin as [Hin | [<- | Hin]].
           ++ specialize (Hbefore r' Hin Hr'). lia.
           ++ lia.
           ++ specialize (Hafter r' Hin Hr'). lia.
        -- exists before, (after ++ [r]).
           split; [rewrite <- app_assoc; reflexivity |].
           split; [exact Hb |]. split; [exact Hbefore |].
           intros r' Hin Hr'. apply in_app_or in Hin.
           destruct Hin as [Hin | [<- | []]]; [now apply Hafter | lia].
      * exists done, []. split; [reflexivity |]. split; [lia |].
        split; [| intros r' []].
        intros r' Hin Hr'. now apply Hinv in Hin.
    + destruct best as [b |].
      * destruct Hinv as (before & after & -> & Hb & Hbefore & Hafter).
        exists before, (after ++ [r]).
        split; [rewrite <- app_assoc; reflexivity |].
        split; [exact Hb |]. split; [exact Hbefore |].
        intros r' Hin Hr'. apply in_app_or in Hin.
        destruct Hin as [Hin | [<- | []]]; [now apply Hafter | lia].
      * intros r' Hin. apply in_app_or in Hin.
        destruct Hin as [Hin | [<- | []]]; [now apply Hinv | lia].
Qed.

Lemma closest_ahead_spec (g : Game.t) :
  match closest_ahead (obstacle_pos g) (player_pos g) (obstacles g) None with
  | None => forall r, In r (obstacles g) -> ~ ahead g r
  | Some b =>
      exists before after,
        obstacles g = before ++ b :: after /\ ahead g b
        /\ (forall r, In r before -> ahead g r ->
              obstacle_pos g b < obstacle_pos g r)
        /\ (forall r, In r after -> ahead g r ->
              obstacle_pos g b <= obstacle_pos g r)
  end.
Proof.
  apply (closest_ahead_from (obstacle_pos g) (player_pos g) (obstacles g) []
                            None).
  intros r [].
Qed.
End Reachable.

(** C1.  In every session the operations lead to, [get_next_obstacle()]
    returns, among the queued obstacles whose top rectangle has its
    horizontal center strictly beyond the center of the player's hitbox,
    the one with the smallest center, and on a tie the first of them in the
    queue; it returns [None] when there is none.  The loop compares with
    the position of the first match only, which is enough because the queue
    of a session is in the order of the positions. *)
Theorem get_next_obstacle_reachable (g : Game.t) :
  reachable g ->
  exists next,
    Game.eval Game.get_next_obstacle g = Ok next
    /\ next = closest_ahead (obstacle_pos g) (player_pos g) (Game.obstacles g)
                            None
    /\ match next with
       | None => forall r, In r (Game.obstacles g) -> ~ ahead g r
       | Some b =>
           exists before after,
             Game.obstacles g = before ++ b :: after /\ ahead g b
             /\ (forall r, In r before -> ahead g r ->
                   obstacle_pos g b < obstacle_pos g r)
             /\ (forall r, In r after -> ahead g r ->
                   obstacle_pos g b <= obstacle_pos g r)
       end.
Proof.
  intros Hg. eexists. split; [| split; [reflexivity |]].
  - apply get_next_obstacle_sorted, session_ok_sorted, session_ok_reachable, Hg.
  - apply closest_ahead_spec.
Qed.

Lemma get_next_obstacle_reachable_witness :
  let ops := [OpAddObstacle 0] ++ repeat OpUpdate 200
             ++ [OpAddObstacle 10] ++ repeat OpUpdate 10
             ++ [OpAddObstacle (-20)] in
  let g := run ops (Game.init (Surface.mk (70, 70))) in
  reachable g
  /\ map (obstacle_pos g) (Game.obstacles g) = [190; 1190; 1240]
  /\ player_pos g = 285
  /\ Game.eval Game.get_next_obstacle g = Ok (Some 1%nat)
  /\ exists next,
       Game.eval Game.get_next_obstacle g = Ok next
       /\ next = closest_ahead (obstacle_pos g) (player_pos g)
                               (Game.obstacles g) None
       /\ match next with
          | None => forall r, In r (Game.obstacles g) -> ~ ahead g r
          | Some b =>
              exists before after,
                Game.obstacles g = before ++ b :: after /\ ahead g b
                /\ (forall r, In r before -> ahead g r ->
                      obstacle_pos g b < obstacle_pos g r)
                /\ (forall r, In r after -> ahead g r ->
                      obstacle_pos g b <= obstacle_pos g r)
          end.
Proof.
  intros ops g.
  assert (H : reachable g)
    by (exists (Surface.mk (70, 70)), ops; reflexivity).
  split; [exact H |].
  split; [vm_compute; reflexivity |].
  split; [vm_compute; reflexivity |].
  split; [vm_compute; reflexivity |].
  apply (get_next_obstacle_reachable g H).
Defined.

(** * Further properties of the code *)

(** ** Obstacles and collisions *)

Section Collisions.
Local Open Scope Z_scope.

(** The two rectangles of an obstacle built for the 640 window. *)
Lemma built_hitbox (offset : Z) (n : nat) :
  -100 <= offset <= 100 ->
  exists o, Obstacle.init 640 offset = Ok o /\
    Obstacle.x (Nat.iter n Obstacle.update o) = 1200 - 5 * Z.of_nat n /\
    Obstacle.get_hitbox (Nat.iter n Obstacle.update o)
    = (Rect.mk (1200 - 5 * Z.of_nat n) 0 80 (235 + offset),
       Rect.mk (1200 - 5 * Z.of_nat n) (405 + offset) 80 520).
Proof.
  intros Hoff. eexists. split; [apply Obstacle_init_ok; lia |].
  rewrite Obstacle_updates_x.
  unfold Obstacle.get_hitbox, Obstacle.set_x, Rect.new, Surface.get_size.
  cbn [fst snd Obstacle.x Obstacle.y Obstacle.screen_height Obstacle.offset
       Obstacle.gap_size Obstacle.speed Obstacle.top_surface
       Obstacle.bot_surface Surface.size].
  rewrite !Qtrunc_inject_Z.
  rewrite (Qtrunc_nonneg_unique _ (405 + offset));
    [| lia | unfold Qle; simpl; lia | unfold Qlt; simpl; lia].
  change (640 / 2) with 320.
  split; [lia |]. f_equal; f_equal; lia.
Qed.

(** Between rectangles of positive size [colliderect] is the overlap of
    the open intervals. *)
Lemma colliderect_positive (a b : Rect.t) :
  0 < Rect.w a -> 0 < Rect.h a -> 0 < Rect.w b -> 0 < Rect.h b ->
  Rect.colliderect a b
  = (Rect.x a <? Rect.x b + Rect.w b) && (Rect.y a <? Rect.y b + Rect.h b)
    && (Rect.x b <? Rect.x a + Rect.w a) && (Rect.y b <? Rect.y a + Rect.h a).
Proof.
  intros Hwa Hha Hwb Hhb. unfold Rect.colliderect.
  destruct (Z.eqb_spec (Rect.w a) 0); [lia |].
  destruct (Z.eqb_spec (Rect.h a) 0); [lia |].
  destruct (Z.eqb_spec (Rect.w b) 0); [lia |].
  destruct (Z.eqb_spec (Rect.h b) 0); [lia |].
  reflexivity.
Qed.
End Collisions.

(** X1.  An obstacle of the game (screen height 640, offset in
    [-100, 100]), wherever its updates have taken it, collides with a
    rectangle of positive width and height that reaches below the top of
    the screen and starts above its bottom exactly when the two overlap
    horizontally and the rectangle is not wholly inside the gap, which
    spans from [235 + offset] to [405 + offset].  (A rectangle of zero
    width or height collides with nothing.) *)
Theorem collision_iff_outside_gap (offset : Z) (n : nat) (p : Rect.t) :
  -100 <= offset <= 100 ->
  0 < Rect.w p -> 0 < Rect.h p ->
  0 < Rect.bottom p -> Rect.top p <= 640 ->
  exists o, Obstacle.init 640 offset = Ok o /\
    let o' := Nat.iter n Obstacle.update o in
    (Obstacle.detect_collision o' p = true
     <-> (Obstacle.x o' < Rect.right p /\ Rect.left p < Obstacle.x o' + 80)
         /\ ~ (235 + offset <= Rect.top p /\ Rect.bottom p <= 405 + offset)).
Proof.
  intros Hoff Hw Hh0 Hb Ht.
  destruct (built_hitbox offset n Hoff) as (o & Ho & Hx & Hh).
  exists o. split; [exact Ho |]. cbv zeta.
  unfold Obstacle.detect_collision. rewrite Hh, Hx.
  rewrite !colliderect_positive by (cbn [Rect.w Rect.h]; lia).
  unfold Rect.bottom, Rect.top, Rect.right, Rect.left in *.
  cbn [Rect.x Rect.y Rect.w Rect.h].
  set (x := 1200 - 5 * Z.of_nat n).
  destruct (Z.ltb_spec x (Rect.x p + Rect.w p));
    destruct (Z.ltb_spec 0 (Rect.y p + Rect.h p));
    destruct (Z.ltb_spec (Rect.x p) (x + 80));
    destruct (Z.ltb_spec (Rect.y p) (0 + (235 + offset)));
    destruct (Z.ltb_spec (405 + offset) (Rect.y p + Rect.h p));
    destruct (Z.ltb_spec (Rect.y p) (405 + offset + 520));
    cbn; split; try discriminate; try lia; try reflexivity; intros; exfalso; lia.
Qed.

Lemma collision_iff_outside_gap_witness :
  let p := Rect.mk 250 300 70 70 in
  -100 <= 0 <= 100 /\ 0 < Rect.w p /\ 0 < Rect.h p /\
  0 < Rect.bottom p /\ Rect.top p <= 640 /\
  exists o, Obstacle.init 640 0 = Ok o /\
    let o' := Nat.iter 180 Obstacle.update o in
    (Obstacle.detect_collision o' p = true
     <-> (Obstacle.x o' < Rect.right p /\ Rect.left p < Obstacle.x o' + 80)
         /\ ~ (235 + 0 <= Rect.top p /\ Rect.bottom p <= 405 + 0)).
Proof.
  intros p.
  assert (H1 : -100 <= 0 <= 100) by lia.
  assert (Hw : 0 < Rect.w p) by (vm_compute; reflexivity).
  assert (Hh : 0 < Rect.h p) by (vm_compute; reflexivity).
  assert (H2 : 0 < Rect.bottom p) by (vm_compute; reflexivity).
  assert (H3 : Rect.top p <= 640) by (vm_compute; discriminate).
  split; [exact H1 |]. split; [exact Hw |]. split; [exact Hh |].
  split; [exact H2 |]. split; [exact H3 |].
  apply (collision_iff_outside_gap 0 180 p H1 Hw Hh H2 H3).
Defined.

(** ** The on-screen filter *)

Section OnScreenFilter.
Import Game.
Local Open Scope Z_scope.

Lemma refilter_run (g : Game.t) : refilter g = (Ok tt, sweep g).
Proof. reflexivity. Qed.

Lemma filter_bool_sublist {A} (P : A -> bool) (l : list A) :
  sublist (List.filter P l) l.
Proof.
  induction l as [| a l IH]; simpl; [constructor |].
  destruct (P a); now constructor.
Qed.

Lemma dropped_count {A} (P : A -> bool) (l : list A) :
  Z.of_nat (length l) - Z.of_nat (length (List.filter P l))
  = Z.of_nat (length (List.filter (fun a => negb (P a)) l)).
Proof. pose proof (filter_length P l). lia. Qed.

Lemma sweep_idempotent (g : Game.t) : sweep (sweep g) = sweep g.
Proof.
  rewrite (sweep_requeue g). cbv zeta. rewrite sweep_of_requeue. cbv zeta.
  rewrite filter_absorbs by trivial. f_equal. lia.
Qed.

Lemma get_on_screen_obstacles_run (g : Game.t) :
  get_on_screen_obstacles g
  = (Ok (List.filter (fun r => on_screen (heap g !!! r)) (obstacles g)),
     set_obstacles_passed
       (obstacles_passed g + Z.of_nat (off_screen_count g)) g).
Proof.
  unfold get_on_screen_obstacles, off_screen_count. cbn.
  now rewrite dropped_count.
Qed.
End OnScreenFilter.

(** X2.  The on-screen filter, as the loop of [update] applies it
    ([self.obstacles = self.get_on_screen_obstacles()]), is idempotent; it
    keeps, in their order, exactly the queued obstacles with
    [x + width > 9], adds the number of the others to [obstacles_passed],
    and touches no obstacle object. *)
Theorem on_screen_filter_idempotent (g : Game.t) :
  let g' := Game.exec refilter g in
  Game.exec refilter g' = g'
  /\ sublist (Game.obstacles g') (Game.obstacles g)
  /\ (forall r, In r (Game.obstacles g')
                <-> In r (Game.obstacles g)
                    /\ 9 < Obstacle.x (Game.heap g !!! r)
                           + Surface.get_width
                               (Obstacle.get_surface (Game.heap g !!! r)))
  /\ Game.obstacles_passed g'
     = Game.obstacles_passed g + Z.of_nat (off_screen_count g)
  /\ Game.heap g' = Game.heap g.
Proof.
  cbv zeta. unfold Game.exec. rewrite !refilter_run. cbn [snd].
  split; [apply sweep_idempotent |].
  split; [apply filter_bool_sublist |].
  split; [| split; [| reflexivity]].
  - intros r. unfold sweep. cbn. rewrite filter_In.
    unfold Game.on_screen. rewrite Z.gtb_ltb, Z.ltb_lt. reflexivity.
  - unfold sweep. cbn. unfold off_screen_count. now rewrite dropped_count.
Qed.

(** X3.  [get_on_screen_obstacles()] is no plain getter: every call adds
    the number of queued obstacles that are off screen to
    [obstacles_passed] and leaves the queue as it is, so [k] calls whose
    result is not stored add that number [k] times. *)
Theorem get_on_screen_obstacles_recounts (g : Game.t) (k : nat) :
  Nat.iter k (Game.exec Game.get_on_screen_obstacles) g
  = Game.set_obstacles_passed
      (Game.obstacles_passed g + Z.of_nat k * Z.of_nat (off_screen_count g)) g.
Proof.
  induction k as [| k IH].
  - simpl. rewrite Z.add_0_r. now destruct g.
  - simpl Nat.iter. rewrite IH. unfold Game.exec.
    rewrite get_on_screen_obstacles_run. cbn [snd].
    unfold off_screen_count, Game.set_obstacles_passed. cbn. f_equal. lia.
Qed.

(** ** Spawning *)

Section Spawning.
Import Game.
Local Open Scope Z_scope.

Lemma add_obstacle_run (g : Game.t) (offset : Z) (o : Obstacle.t) :
  Obstacle.init (Surface.get_height (window g)) offset = Ok o ->
  add_obstacle offset g
  = (Ok tt, set_obstacles (obstacles g ++ [length (heap g)])
              (set_heap (heap g ++ [o]) g)).
Proof. intros E. unfold add_obstacle. cbn. rewrite E. reflexivity. Qed.
End Spawning.

(** X4.  In a session with the 640 window, [add_obstacle()] succeeds for
    every offset [randint(-100, 100)] can draw.  It appends one reference
    at the tail of the queue, to a new object at [x = 1200] that is on
    screen, and changes nothing else: every object already in the store is
    as it was. *)
Theorem add_obstacle_appends (g : Game.t) (offset : Z) :
  Surface.get_height (Game.window g) = 640 ->
  -100 <= offset <= 100 ->
  exists o,
    Obstacle.init 640 offset = Ok o
    /\ Obstacle.x o = 1200 /\ Obstacle.offset o = offset
    /\ Game.on_screen o = true
    /\ Game.add_obstacle offset g
       = (Ok tt, Game.set_obstacles (Game.obstacles g ++ [length (Game.heap g)])
                   (Game.set_heap (Game.heap g ++ [o]) g))
    /\ Game.heap (Game.exec (Game.add_obstacle offset) g)
         !!! length (Game.heap g) = o
    /\ forall r, (r < length (Game.heap g))%nat ->
         Game.heap (Game.exec (Game.add_obstacle offset) g) !!! r
         = Game.heap g !!! r.
Proof.
  intros Hw Hoff.
  pose proof (Obstacle_init_ok 640 offset ltac:(lia) Hoff) as E.
  eexists. split; [exact E |].
  assert (Hrun := add_obstacle_run g offset _ ltac:(rewrite Hw; exact E)).
  unfold Game.exec. rewrite Hrun. cbn [snd Game.heap Game.set_heap
                                        Game.set_obstacles].
  repeat split.
  - now apply list_lookup_total_middle.
  - intros r Hr. now apply lookup_total_app_l.
Qed.

Lemma add_obstacle_appends_witness :
  let g := Game.init (Surface.mk (70, 70)) in
  Surface.get_height (Game.window g) = 640 /\ -100 <= 25 <= 100 /\
  exists o,
    Obstacle.init 640 25 = Ok o
    /\ Obstacle.x o = 1200 /\ Obstacle.offset o = 25
    /\ Game.on_screen o = true
    /\ Game.add_obstacle 25 g
       = (Ok tt, Game.set_obstacles (Game.obstacles g ++ [length (Game.heap g)])
                   (Game.set_heap (Game.heap g ++ [o]) g))
    /\ Game.heap (Game.exec (Game.add_obstacle 25) g)
         !!! length (Game.heap g) = o
    /\ forall r, (r < length (Game.heap g))%nat ->
         Game.heap (Game.exec (Game.add_obstacle 25) g) !!! r
         = Game.heap g !!! r.
Proof.
  intros g.
  assert (H1 : Surface.get_height (Game.window g) = 640) by reflexivity.
  assert (H2 : -100 <= 25 <= 100) by lia.
  split; [exact H1 |]. split; [exact H2 |].
  apply (add_obstacle_appends g 25 H1 H2).
Defined.

(** ** Counters along a run *)

Section RunCounters.
Import Game.
Local Open Scope Z_scope.

#[local] Arguments Obstacle.detect_collision : simpl never.
#[local] Arguments Player.get_hitbox : simpl never.
#[local] Arguments Player.update : simpl never.

(** What the loop of [update] leaves alone. *)
Lemma loop_frame (l : list ref) (g : Game.t) :
  let g' := fold_left (fun g0 r => sweep (move g0 r)) l g in
  window g' = window g /\ gravity g' = gravity g /\ player g' = player g
  /\ distance_traveled g' = distance_traveled g.
Proof.
  revert g. induction l as [| r l IH]; intros g; [repeat split |].
  simpl. destruct (IH (sweep (move g r))) as (-> & -> & -> & ->).
  unfold sweep, move. cbn. case_collision; repeat split.
Qed.

Lemma update_frame (g : Game.t) :
  window (exec update g) = window g
  /\ gravity (exec update g) = gravity g
  /\ player (exec update g)
     = Player.update (Surface.get_height (window g)) (gravity g) (player g)
  /\ distance_traveled (exec update g) = (distance_traveled g + 1)%Q.
Proof.
  unfold exec. rewrite update_run. cbn [snd].
  destruct (loop_frame (obstacles g) (begin_tick g)) as (-> & -> & -> & ->).
  repeat split.
Qed.

Lemma step_window (o : op) (g : Game.t) :
  window (exec (run_op o) g) = window g.
Proof.
  destruct o; simpl run_op; try reflexivity.
  - apply update_frame.
  - unfold exec, add_obstacle. cbn. destruct (Obstacle.init _ _); reflexivity.
  - now rewrite (read_only_discard _ read_only_get_next_obstacle).
  - now rewrite (read_only_discard _ (read_only_distance_to_obstacle _)).
  - now rewrite (read_only_discard _ (read_only_height_to_obstacle _)).
  - now rewrite (read_only_discard _ read_only_calculate_fitness).
Qed.

Lemma run_snoc (ops : list op) (o : op) (g : Game.t) :
  run (ops ++ [o]) g = exec (run_op o) (run ops g).
Proof. unfold run. now rewrite fold_left_app. Qed.

Lemma run_window (ops : list op) (g : Game.t) : window (run ops g) = window g.
Proof.
  induction ops as [| o ops IH] using rev_ind; [reflexivity |].
  now rewrite run_snoc, step_window.
Qed.

Lemma step_distance (o : op) (g : Game.t) :
  distance_traveled (exec (run_op o) g)
  = match o with
    | OpUpdate => (distance_traveled g + 1)%Q
    | _ => distance_traveled g
    end.
Proof.
  destruct o; simpl run_op; try reflexivity.
  - apply update_frame.
  - unfold exec, add_obstacle. cbn. destruct (Obstacle.init _ _); reflexivity.
  - now rewrite (read_only_discard _ read_only_get_next_obstacle).
  - now rewrite (read_only_discard _ (read_only_distance_to_obstacle _)).
  - now rewrite (read_only_discard _ (read_only_height_to_obstacle _)).
  - now rewrite (read_only_discard _ read_only_calculate_fitness).
Qed.

Lemma count_updates_snoc (ops : list op) (o : op) :
  count_updates (ops ++ [o])
  = (count_updates ops + match o with OpUpdate => 1 | _ => 0 end)%nat.
Proof.
  unfold count_updates. rewrite List.filter_app, length_app.
  destruct o; reflexivity.
Qed.

Lemma count_spawns_snoc (ops : list op) (o : op) :
  count_spawns (ops ++ [o])
  = (count_spawns ops + match o with OpAddObstacle _ => 1 | _ => 0 end)%nat.
Proof.
  unfold count_spawns. rewrite List.filter_app, length_app.
  destruct o; reflexivity.
Qed.

Lemma reachable_run (image : Surface.t) (ops : list op) :
  reachable (run ops (init image)).
Proof. now exists image, ops. Qed.

(** How one operation changes the number of obstacles accounted for and
    the counter. *)
Lemma step_accounted (o : op) (g : Game.t) :
  session_ok g -> Surface.get_height (window g) = 640 ->
  op_draws_in_range o ->
  accounted (exec (run_op o) g)
  = accounted g + match o with OpAddObstacle _ => 1 | _ => 0 end
  /\ obstacles_passed g <= obstacles_passed (exec (run_op o) g).
Proof.
  intros Hok Hw Hd. destruct o; simpl run_op.
  - split; [unfold accounted; cbn; lia | reflexivity].
  - pose proof (built_heap_wf _ (ok_built g Hok)) as Hwf.
    pose proof (tick_accounted g Hwf) as Ha.
    pose proof (tick_queue_shrinks g Hwf) as Hl.
    split; [lia |]. unfold accounted in Ha. lia.
  - simpl in Hd. unfold draw_in_range in Hd.
    pose proof (Obstacle_init_ok 640 offset ltac:(lia) Hd) as E.
    unfold exec. rewrite (add_obstacle_run g offset _ ltac:(rewrite Hw; exact E)).
    unfold accounted. cbn. rewrite length_app. simpl. split; lia.
  - split; [unfold accounted; cbn; lia | reflexivity].
  - rewrite (read_only_discard _ read_only_get_next_obstacle). split; lia.
  - rewrite (read_only_discard _ (read_only_distance_to_obstacle _)). split; lia.
  - rewrite (read_only_discard _ (read_only_height_to_obstacle _)). split; lia.
  - rewrite (read_only_discard _ read_only_calculate_fitness). split; lia.
  - rewrite (read_only_discard _ (read_only_gets _)). split; lia.
Qed.
End RunCounters.

(** X5.  Along every sequence of operations on a new session whose
    spawns draw their offsets from [-100, 100], every obstacle ever spawned
    is either still in the queue or has been counted exactly once:
    [obstacles_passed] plus the length of the queue is the number of
    [add_obstacle()] calls; and [obstacles_passed] is never negative. *)
Theorem spawned_are_queued_or_counted (image : Surface.t) (ops : list op) :
  Forall op_draws_in_range ops ->
  let g := run ops (Game.init image) in
  Game.obstacles_passed g + Z.of_nat (length (Game.obstacles g))
  = Z.of_nat (count_spawns ops)
  /\ 0 <= Game.obstacles_passed g.
Proof.
  intros Hd. cbv zeta.
  induction ops as [| o ops IH] using rev_ind; [split; [reflexivity | cbn; lia] |].
  apply Forall_app in Hd. destruct Hd as [Hd Ho].
  apply Forall_cons in Ho. destruct Ho as [Ho _].
  destruct (IH Hd) as [Ha Hp].
  rewrite run_snoc, count_spawns_snoc.
  pose proof (session_ok_reachable _ (reachable_run image ops)) as Hok.
  assert (Hw : Surface.get_height (Game.window (run ops (Game.init image))) = 640)
    by now rewrite run_window.
  destruct (step_accounted o _ Hok Hw Ho) as [Hs Hm].
  unfold accounted in Hs. split; [| lia].
  rewrite Hs, Ha. destruct o; lia.
Qed.

Lemma spawned_are_queued_or_counted_witness :
  let ops := OpAddObstacle 10 :: repeat OpUpdate 255 ++ [OpAddObstacle (-20)] in
  let image := Surface.mk (70, 70) in
  Forall op_draws_in_range ops /\
  let g := run ops (Game.init image) in
  Game.obstacles_passed g + Z.of_nat (length (Game.obstacles g))
  = Z.of_nat (count_spawns ops)
  /\ 0 <= Game.obstacles_passed g.
Proof.
  intros ops image.
  assert (H : Forall op_draws_in_range ops).
  { apply Forall_forall. intros o Ho.
    apply elem_of_cons in Ho. destruct Ho as [-> | Ho]; [cbn; unfold draw_in_range; lia |].
    apply elem_of_app in Ho. destruct Ho as [Ho | Ho].
    - apply list_elem_of_In, repeat_spec in Ho. now subst o.
    - apply list_elem_of_singleton in Ho. subst o. cbn. unfold draw_in_range. lia. }
  split; [exact H |].
  apply (spawned_are_queued_or_counted image ops H).
Defined.

(** X6.  [distance_traveled] counts the ticks: after any sequence of
    operations on a new session it equals the number of [update()] calls
    in it, whatever else was called. *)
Theorem distance_traveled_counts_updates (image : Surface.t) (ops : list op) :
  (Game.distance_traveled (run ops (Game.init image))
   == inject_Z (Z.of_nat (count_updates ops)))%Q.
Proof.
  induction ops as [| o ops IH] using rev_ind; [reflexivity |].
  rewrite run_snoc, step_distance, count_updates_snoc.
  destruct o; rewrite ?Nat.add_0_r; try exact IH.
  rewrite IH, Nat2Z.inj_add, inject_Z_plus. reflexivity.
Qed.

(** ** The queue of a reachable session *)

Section QueueFacts.
Import Game.
Local Open Scope Z_scope.

Lemma tick_heap (g : Game.t) :
  heap_wf (heap g) ->
  heap (exec update g)
  = fold_left (fun h r => alter Obstacle.update r h) (obstacles g) (heap g).
Proof.
  intros Hwf. pose proof (tick_view g Hwf) as E.
  unfold obstacle_view, obstacle_view_tick in E. now injection E as Eh _ _.
Qed.

(** A tick moves the queued obstacles once and no other object. *)
Lemma tick_lookup (g : Game.t) (r : ref) :
  session_ok g ->
  heap (exec update g) !!! r
  = if decide (r ∈ obstacles g) then Obstacle.update (heap g !!! r)
    else heap g !!! r.
Proof.
  intros Hok. rewrite tick_heap by apply built_heap_wf, Hok.
  apply moved_lookup; apply Hok.
Qed.

Lemma moved_Forall (P : Obstacle.t -> Prop) (l : list ref) (h : list Obstacle.t) :
  (forall o, P o -> P (Obstacle.update o)) ->
  Forall P h ->
  Forall P (fold_left (fun h0 r0 => alter Obstacle.update r0 h0) l h).
Proof.
  intros HP. revert h. induction l as [| a l IH]; intros h Hh; [exact Hh |].
  simpl. apply IH, Forall_alter; [exact Hh |]. intros o _. apply HP.
Qed.

Lemma regular_update (o : Obstacle.t) :
  obstacle_built o /\ obstacle_regular o ->
  obstacle_built (Obstacle.update o) /\ obstacle_regular (Obstacle.update o).
Proof.
  intros [Hb (Hw & Hwb & k & Hk & Hx)]. split; [now apply obstacle_built_update |].
  destruct Hb as (Hs & _). unfold obstacle_regular, Obstacle.update. cbn.
  split; [exact Hw |]. split; [exact Hwb |].
  exists (k + 1). split; [lia |]. rewrite Hs, Hx. lia.
Qed.

Lemma Obstacle_init_regular (screen_height offset : Z) (o : Obstacle.t) :
  Obstacle.init screen_height offset = Ok o -> obstacle_regular o.
Proof.
  unfold Obstacle.init, Obstacle.init_surface, Surface.new. cbn [fst snd].
  repeat match goal with
         | |- context [if ?c then _ else _] => destruct c
         end; try discriminate.
  intros E. injection E as <-. split; [reflexivity |]. split; [reflexivity |].
  exists 0. split; [lia | reflexivity].
Qed.

Lemma session_regular_step (o : op) (g : Game.t) :
  session_ok g -> session_regular g -> session_regular (exec (run_op o) g).
Proof.
  intros Hok [Hreg Hon]. destruct o; simpl run_op;
    try (split; assumption).
  - (* update *)
    pose proof (built_heap_wf _ (ok_built g Hok)) as Hwf. split.
    + rewrite tick_heap by exact Hwf.
      apply moved_Forall; [apply regular_update | exact Hreg].
    + unfold queue_on_screen. rewrite tick_queue by exact Hwf.
      apply Forall_forall. intros r Hr.
      apply list_elem_of_In, filter_In in Hr. apply Hr.
  - (* add_obstacle *)
    unfold exec, add_obstacle. cbn.
    destruct (Obstacle.init _ _) as [ob | e] eqn:E; cbn; [| split; assumption].
    pose proof (Obstacle_init_built _ _ _ E) as [Hb Hx].
    pose proof (Obstacle_init_regular _ _ _ E) as Hr.
    split; cbn.
    + apply Forall_app. split; [exact Hreg |].
      constructor; [split; assumption | constructor].
    + unfold queue_on_screen in *. cbn. apply Forall_app. split.
      * pose proof (ok_refs g Hok) as Hrefs.
        rewrite Forall_forall in *. intros r Hin.
        rewrite lookup_total_app_l by now apply Hrefs. now apply Hon.
      * constructor; [| constructor].
        rewrite list_lookup_total_middle by reflexivity.
        unfold on_screen. destruct Hr as [Hw _]. rewrite Hw, Hx. reflexivity.
  - now rewrite (read_only_discard _ read_only_get_next_obstacle).
  - now rewrite (read_only_discard _ (read_only_distance_to_obstacle _)).
  - now rewrite (read_only_discard _ (read_only_height_to_obstacle _)).
  - now rewrite (read_only_discard _ read_only_calculate_fitness).
Qed.

Lemma session_regular_reachable (g : Game.t) : reachable g -> session_regular g.
Proof.
  intros (image & ops & ->).
  induction ops as [| o ops IH] using rev_ind.
  - split; [constructor | constructor].
  - rewrite run_snoc. apply session_regular_step; [| exact IH].
    apply session_ok_reachable, reachable_run.
Qed.

(** On a list in the order of a relation, a filter that holds of all the
    elements after one of which it holds keeps a tail of the list. *)
Lemma sorted_filter_tail {A} (R : A -> A -> Prop) (P : A -> bool) (l : list A) :
  StronglySorted R l ->
  (forall a b, a ∈ l -> b ∈ l -> R a b -> P a = true -> P b = true) ->
  exists k, (k <= length l)%nat /\ List.filter P l = drop k l.
Proof.
  induction l as [| a l IH]; intros Hs Hmono; [exists 0%nat; split; [lia | reflexivity] |].
  apply StronglySorted_cons in Hs. destruct Hs as [Ha Hs]. simpl.
  destruct (P a) eqn:Pa.
  - exists 0%nat. split; [lia |]. simpl. f_equal.
    rewrite Forall_forall in Ha.
    clear IH Hs. assert (Hall : forall b, b ∈ l -> P b = true).
    { intros b Hb. apply (Hmono a b); [left | now right | now apply Ha | exact Pa]. }
    clear Hmono Ha. induction l as [| b l IHl]; [reflexivity |].
    simpl. rewrite (Hall b) by left. f_equal. apply IHl.
    intros c Hc. apply Hall. now right.
  - destruct (IH Hs) as (k & Hk & E).
    { intros x y Hx Hy. apply Hmono; now right. }
    exists (S k). split; [simpl; lia | exact E].
Qed.
End QueueFacts.

(** X7.  In a session the operations lead to, a tick moves every queued
    obstacle by exactly its speed, 5, to the left, through the object the
    queue shares with the iterator of the loop, changes nothing else of it,
    and leaves every object that is not queued as it was. *)
Theorem update_moves_queued_obstacles (g : Game.t) (r : ref) :
  reachable g ->
  let g' := Game.exec Game.update g in
  (In r (Game.obstacles g) ->
     Game.heap g' !!! r = Obstacle.update (Game.heap g !!! r)
     /\ Obstacle.x (Game.heap g' !!! r) = Obstacle.x (Game.heap g !!! r) - 5)
  /\ (~ In r (Game.obstacles g) -> Game.heap g' !!! r = Game.heap g !!! r)
  /\ length (Game.heap g') = length (Game.heap g).
Proof.
  intros Hg. pose proof (session_ok_reachable g Hg) as Hok. cbv zeta.
  pose proof (tick_lookup g r Hok) as E.
  split; [| split].
  - intros Hin. apply list_elem_of_In in Hin.
    destruct (decide (r ∈ Game.obstacles g)) as [_ | H]; [| contradiction].
    split; [exact E |]. rewrite E.
    pose proof (ok_refs g Hok) as Hrefs. rewrite Forall_forall in Hrefs.
    pose proof (Forall_lookup_total_1 _ _ _ (ok_built g Hok) (Hrefs r Hin))
      as (Hs & _).
    unfold Obstacle.update. cbn. now rewrite Hs.
  - intros Hnin.
    destruct (decide (r ∈ Game.obstacles g)) as [H | _]; [| exact E].
    apply list_elem_of_In in H. contradiction.
  - rewrite tick_heap by apply built_heap_wf, Hok. apply moved_length.
Qed.

Lemma update_moves_queued_obstacles_witness :
  let g := run [OpAddObstacle 0; OpUpdate] (Game.init (Surface.mk (70, 70))) in
  reachable g /\
  let g' := Game.exec Game.update g in
  (In 0%nat (Game.obstacles g) ->
     Game.heap g' !!! 0%nat = Obstacle.update (Game.heap g !!! 0%nat)
     /\ Obstacle.x (Game.heap g' !!! 0%nat)
        = Obstacle.x (Game.heap g !!! 0%nat) - 5)
  /\ (~ In 0%nat (Game.obstacles g) ->
      Game.heap g' !!! 0%nat = Game.heap g !!! 0%nat)
  /\ length (Game.heap g') = length (Game.heap g).
Proof.
  intros g.
  assert (H : reachable g)
    by (exists (Surface.mk (70, 70)), [OpAddObstacle 0; OpUpdate]; reflexivity).
  split; [exact H |]. apply (update_moves_queued_obstacles g 0%nat H).
Defined.

(** X8.  In every session the operations lead to, the queue holds
    references to distinct objects of the store, in the order of their
    [x] with the leftmost at the front, and every queued obstacle is on
    screen: its [x] is 1200 less a multiple of 5 and lies between -70 and
    1200. *)
Theorem reachable_queue_ordered (g : Game.t) :
  reachable g ->
  NoDup (Game.obstacles g)
  /\ StronglySorted
       (fun a b => Obstacle.x (Game.heap g !!! a) <= Obstacle.x (Game.heap g !!! b))
       (Game.obstacles g)
  /\ forall r, In r (Game.obstacles g) ->
       (r < length (Game.heap g))%nat
       /\ -70 <= Obstacle.x (Game.heap g !!! r) <= 1200
       /\ exists k : Z, 0 <= k /\ Obstacle.x (Game.heap g !!! r) = 1200 - 5 * k.
Proof.
  intros Hg. pose proof (session_ok_reachable g Hg) as Hok.
  destruct (session_regular_reachable g Hg) as [Hreg Hon].
  split; [apply Hok |]. split; [apply Hok |].
  intros r Hin. apply list_elem_of_In in Hin.
  pose proof (ok_refs g Hok) as Hrefs. rewrite Forall_forall in Hrefs.
  specialize (Hrefs r Hin). split; [exact Hrefs |].
  pose proof (Forall_lookup_total_1 _ _ _ Hreg Hrefs)
    as ((_ & _ & Hx) & Hw & _ & k & Hk & Ek).
  unfold queue_on_screen in Hon. rewrite Forall_forall in Hon.
  specialize (Hon r Hin). unfold Game.on_screen in Hon.
  rewrite Hw, Z.gtb_ltb, Z.ltb_lt in Hon.
  split; [| now exists k]. lia.
Qed.

Lemma reachable_queue_ordered_witness :
  let g := run [OpAddObstacle 0; OpUpdate; OpAddObstacle 5]
               (Game.init (Surface.mk (70, 70))) in
  reachable g /\
  NoDup (Game.obstacles g)
  /\ StronglySorted
       (fun a b => Obstacle.x (Game.heap g !!! a) <= Obstacle.x (Game.heap g !!! b))
       (Game.obstacles g)
  /\ forall r, In r (Game.obstacles g) ->
       (r < length (Game.heap g))%nat
       /\ -70 <= Obstacle.x (Game.heap g !!! r) <= 1200
       /\ exists k : Z, 0 <= k /\ Obstacle.x (Game.heap g !!! r) = 1200 - 5 * k.
Proof.
  intros g.
  assert (H : reachable g)
    by (exists (Surface.mk (70, 70)), [OpAddObstacle 0; OpUpdate; OpAddObstacle 5];
        reflexivity).
  split; [exact H |]. apply (reachable_queue_ordered g H).
Defined.

(** X9.  In a session the operations lead to, [update()] removes
    obstacles from the front of the queue only: the queue after the tick is
    the queue before it without its first [k] obstacles, and
    [obstacles_passed] grows by that [k]. *)
Theorem update_removes_from_the_front (g : Game.t) :
  reachable g ->
  exists k : nat,
    (k <= length (Game.obstacles g))%nat
    /\ Game.obstacles (Game.exec Game.update g) = drop k (Game.obstacles g)
    /\ Game.obstacles_passed (Game.exec Game.update g)
       = Game.obstacles_passed g + Z.of_nat k.
Proof.
  intros Hg. pose proof (session_ok_reachable g Hg) as Hok.
  destruct (session_regular_reachable g Hg) as [Hreg _].
  pose proof (built_heap_wf _ (ok_built g Hok)) as Hwf.
  pose proof (ok_refs g Hok) as Hrefs. rewrite Forall_forall in Hrefs.
  pose proof (ok_sorted g Hok) as Hs.
  set (g' := Game.exec Game.update g).
  assert (Hx : forall a, a ∈ Game.obstacles g ->
             Obstacle.x (Game.heap g' !!! a) = Obstacle.x (Game.heap g !!! a) - 5
             /\ Surface.get_width (Obstacle.get_surface (Game.heap g' !!! a)) = 80).
  { intros a Ha. subst g'. rewrite (tick_lookup g a Hok).
    destruct (decide (a ∈ Game.obstacles g)) as [_ | H]; [| contradiction].
    pose proof (Forall_lookup_total_1 _ _ _ Hreg (Hrefs a Ha))
      as ((Hsp & _) & Hw & _).
    unfold Obstacle.update, Obstacle.get_surface in *. cbn. rewrite Hsp.
    split; [reflexivity | exact Hw]. }
  destruct (sorted_filter_tail
              (fun a b => Obstacle.x (Game.heap g !!! a)
                          <= Obstacle.x (Game.heap g !!! b))
              (fun r => Game.on_screen (Game.heap g' !!! r))
              (Game.obstacles g) Hs) as (k & Hk & E).
  { intros a b Ha Hb Hab. unfold Game.on_screen.
    destruct (Hx a Ha) as [-> ->]. destruct (Hx b Hb) as [-> ->].
    rewrite !Z.gtb_ltb, !Z.ltb_lt. lia. }
  exists k. split; [exact Hk |].
  assert (Eq : Game.obstacles g' = drop k (Game.obstacles g)).
  { subst g'. rewrite tick_queue by exact Hwf. exact E. }
  split; [exact Eq |].
  pose proof (tick_accounted g Hwf) as Ha. fold g' in Ha.
  unfold accounted in Ha. rewrite Eq, length_drop in Ha. lia.
Qed.

Lemma update_removes_from_the_front_witness :
  let g := run (OpAddObstacle 0 :: repeat OpUpdate 254)
               (Game.init (Surface.mk (70, 70))) in
  reachable g /\
  exists k : nat,
    (k <= length (Game.obstacles g))%nat
    /\ Game.obstacles (Game.exec Game.update g) = drop k (Game.obstacles g)
    /\ Game.obstacles_passed (Game.exec Game.update g)
       = Game.obstacles_passed g + Z.of_nat k.
Proof.
  intros g.
  assert (H : reachable g)
    by (exists (Surface.mk (70, 70)), (OpAddObstacle 0 :: repeat OpUpdate 254);
        reflexivity).
  split; [exact H |]. apply (update_removes_from_the_front g H).
Defined.

(** ** When a tick can end the game *)

Section GameOver.
Import Game.
Local Open Scope Z_scope.

#[local] Arguments Obstacle.detect_collision : simpl never.
#[local] Arguments Player.get_hitbox : simpl never.
#[local] Arguments Player.update : simpl never.

Lemma loop_heap (l : list ref) (g : Game.t) :
  heap (fold_left (fun g0 r => sweep (move g0 r)) l g)
  = fold_left (fun h r => alter Obstacle.update r h) l (heap g).
Proof.
  revert g. induction l as [| r l IH]; intros g; [reflexivity |].
  simpl. rewrite IH. f_equal.
  change (heap (sweep ?x)) with (heap x). apply move_fields.
Qed.

(** An obstacle and a rectangle that do not overlap horizontally do not
    collide. *)
Lemma no_overlap_no_collision (o : Obstacle.t) (p : Rect.t) :
  Surface.get_width (Obstacle.top_surface o) = 80 ->
  Surface.get_width (Obstacle.bot_surface o) = 80 ->
  Rect.right p <= Obstacle.x o \/ Obstacle.x o + 80 <= Rect.left p ->
  Obstacle.detect_collision o p = false.
Proof.
  unfold Surface.get_width. intros Ht Hb H.
  unfold Obstacle.detect_collision, Obstacle.get_hitbox, Rect.colliderect,
    Rect.new, Rect.right, Rect.left, Surface.get_size in *.
  cbn [fst snd Rect.x Rect.y Rect.w Rect.h]. rewrite !Qtrunc_inject_Z, Ht, Hb.
  assert (E : forall Y1 Y2 : bool,
             (Obstacle.x o <? Rect.x p + Rect.w p) && Y1
             && (Rect.x p <? Obstacle.x o + 80) && Y2 = false).
  { intros Y1 Y2.
    destruct (Z.ltb_spec (Obstacle.x o) (Rect.x p + Rect.w p));
      destruct (Z.ltb_spec (Rect.x p) (Obstacle.x o + 80));
      rewrite ?andb_false_r; cbn; try reflexivity; lia. }
  rewrite !E.
  repeat match goal with
         | |- context [if ?c then false else false] => destruct c
         end; reflexivity.
Qed.

Lemma Player_hitbox_sides (p : Player.t) :
  Rect.left (Player.get_hitbox p) = Player.x p
  /\ Rect.right (Player.get_hitbox p)
     = Player.x p + Surface.get_width (Player.surface p).
Proof.
  unfold Player.get_hitbox, GameObject.get_hitbox, Rect.new, Rect.left,
    Rect.right. cbn. now rewrite Qtrunc_inject_Z.
Qed.

#[local] Arguments Obstacle.get_hitbox : simpl never.
#[local] Arguments Qabs : simpl never.
#[local] Arguments Qminus : simpl never.
#[local] Arguments Qplus : simpl never.
#[local] Arguments Qdiv : simpl never.

(** The value [calculate_fitness] returns for the candidate the loop of
    [get_next_obstacle] ends with. *)
Lemma fitness_form (g : Game.t) (b : ref) (p : Z) :
  fold_left (next_obstacle_step g) (obstacles g) None = Some (b, p) ->
  exists h : Q,
    eval calculate_fitness g
    = Ok (distance_traveled g
          - (inject_Z (obstacle_pos g b - player_pos g) + Qabs h))%Q.
Proof.
  intros E. unfold eval, calculate_fitness, bind.
  rewrite get_next_obstacle_run, E. cbn. eexists. reflexivity.
Qed.
End GameOver.

(** X10.  In a session the operations lead to, a tick cannot end the
    game from afar: if every queued obstacle, once moved by its 5, lies
    wholly to the right or wholly to the left of the player's hitbox,
    [update()] leaves the state as it is. *)
Theorem no_game_over_without_overlap (g : Game.t) :
  reachable g ->
  (forall r, In r (Game.obstacles g) ->
     Rect.right (Player.get_hitbox (Game.player g))
       <= Obstacle.x (Game.heap g !!! r) - 5
     \/ Obstacle.x (Game.heap g !!! r) - 5 + 80
          <= Rect.left (Player.get_hitbox (Game.player g))) ->
  Game.state (Game.exec Game.update g) = Game.state g.
Proof.
  intros Hg Hfar.
  pose proof (session_ok_reachable g Hg) as Hok.
  destruct (session_regular_reachable g Hg) as [Hreg _].
  destruct (state_update g) as [E | E]; [exact E |].
  apply state_update_over in E. destruct E as [E | (l1 & r & l2 & Hq & Hc)];
    [now rewrite E, (proj2 (state_update_over g) (or_introl E)) |].
  exfalso.
  pose proof (ok_distinct g Hok) as Hnd. rewrite Hq in Hnd.
  apply NoDup_app in Hnd. destruct Hnd as (Hnd1 & Hdisj & _).
  pose proof (ok_refs g Hok) as Hrefs. rewrite Hq in Hrefs.
  apply Forall_app in Hrefs. destruct Hrefs as [Hrefs1 Hrefs2].
  apply Forall_cons in Hrefs2. destruct Hrefs2 as [Hr _].
  assert (Hnin : r ∉ l1) by (intros H; apply (Hdisj r H); left).
  unfold collides_at, Game.exec in Hc.
  rewrite (for_each_run _ (fun g0 r0 => sweep (move g0 r0)) l1 _ update_body_run)
    in Hc. cbn [snd] in Hc.
  destruct (loop_frame l1 (begin_tick g)) as (_ & _ & Hp & _).
  cbv zeta in Hp. rewrite Hp in Hc.
  rewrite loop_heap in Hc. change (Game.heap (begin_tick g)) with (Game.heap g) in Hc.
  rewrite list_lookup_total_alter_eq in Hc by now rewrite moved_length.
  rewrite moved_lookup in Hc by assumption.
  destruct (decide (r ∈ l1)) as [H | _]; [contradiction |].
  pose proof (Forall_lookup_total_1 _ _ _ Hreg Hr)
    as ((Hs & Hwt & _) & _ & Hwb & _).
  rewrite no_overlap_no_collision in Hc; [discriminate | exact Hwt | exact Hwb |].
  change (Game.player (begin_tick g))
    with (Player.update (Surface.get_height (Game.window g)) (Game.gravity g)
                        (Game.player g)).
  destruct (Player_hitbox_sides (Game.player g)) as [El Er].
  destruct (Player_hitbox_sides
              (Player.update (Surface.get_height (Game.window g))
                             (Game.gravity g) (Game.player g))) as [-> ->].
  destruct (Player_update_frame (Surface.get_height (Game.window g))
                                (Game.gravity g) (Game.player g)) as [-> ->].
  assert (Hin : In r (Game.obstacles g))
    by (rewrite Hq; apply in_or_app; right; now left).
  specialize (Hfar r Hin). rewrite El, Er in Hfar.
  unfold Obstacle.update. cbn. rewrite Hs. exact Hfar.
Qed.

Lemma no_game_over_without_overlap_witness :
  let g := run [OpInitGame; OpAddObstacle 0; OpUpdate]
               (Game.init (Surface.mk (70, 70))) in
  reachable g /\
  (forall r, In r (Game.obstacles g) ->
     Rect.right (Player.get_hitbox (Game.player g))
       <= Obstacle.x (Game.heap g !!! r) - 5
     \/ Obstacle.x (Game.heap g !!! r) - 5 + 80
          <= Rect.left (Player.get_hitbox (Game.player g))) /\
  Game.state (Game.exec Game.update g) = Game.state g.
Proof.
  intros g.
  assert (H : reachable g)
    by (exists (Surface.mk (70, 70)), [OpInitGame; OpAddObstacle 0; OpUpdate];
        reflexivity).
  assert (Hfar : forall r, In r (Game.obstacles g) ->
     Rect.right (Player.get_hitbox (Game.player g))
       <= Obstacle.x (Game.heap g !!! r) - 5
     \/ Obstacle.x (Game.heap g !!! r) - 5 + 80
          <= Rect.left (Player.get_hitbox (Game.player g))).
  { intros r [<- | []]. left. vm_compute. discriminate. }
  split; [exact H |]. split; [exact Hfar |].
  apply (no_game_over_without_overlap g H Hfar).
Defined.

(** X11.  Whenever [calculate_fitness()] returns, the fitness is at most
    [distance_traveled - 1]: the next obstacle is ahead of the player by at
    least one pixel and the height difference counts by its absolute
    value. *)
Theorem fitness_below_distance (g : Game.t) (f : Q) :
  Game.eval Game.calculate_fitness g = Ok f ->
  (f <= Game.distance_traveled g - 1)%Q.
Proof.
  destruct (fold_left (next_obstacle_step g) (Game.obstacles g) None)
    as [[b p] |] eqn:E.
  - destruct (fitness_form g b p E) as [h ->]. intros Hf. injection Hf as <-.
    assert (Ha : ahead g b).
    { refine (scan_result g (ahead g) (Game.obstacles g) None _ _ b p E);
        [discriminate | tauto]. }
    unfold ahead in Ha.
    pose proof (Qabs_nonneg h) as Hh.
    assert (Hd : (1 <= inject_Z (obstacle_pos g b - player_pos g))%Q)
      by (unfold Qle; simpl; lia).
    set (a := Qabs h) in *.
    set (d := inject_Z (obstacle_pos g b - player_pos g)) in *.
    lra.
  - unfold Game.eval, Game.calculate_fitness, Game.bind.
    rewrite get_next_obstacle_run, E. discriminate.
Qed.

Lemma fitness_below_distance_witness :
  let g := run [OpAddObstacle 0; OpUpdate] (Game.init (Surface.mk (70, 70))) in
  Game.eval Game.calculate_fitness g = Ok (-2064 # 2)%Q /\
  ((-2064 # 2) <= Game.distance_traveled g - 1)%Q.
Proof.
  intros g.
  assert (H : Game.eval Game.calculate_fitness g
              = Ok (-2064 # 2)%Q)
    by (vm_compute; reflexivity).
  split; [exact H |]. apply (fitness_below_distance g _ H).
Defined.

(** ** The motion of the player *)

Section PlayerMotion.
Local Open Scope Z_scope.

Lemma Qtrunc_nonneg (q : Q) : (0 <= q)%Q -> 0 <= Qtrunc q.
Proof.
  destruct q as [n d]. unfold Qtrunc, Qle; simpl. intros H.
  apply Z.quot_pos; lia.
Qed.

Lemma Qtrunc_below (q : Q) : (0 <= q)%Q -> (inject_Z (Qtrunc q) <= q)%Q.
Proof.
  destruct q as [n d]. unfold Qtrunc, Qle; simpl. intros H.
  rewrite Z.quot_div_nonneg by lia.
  pose proof (Z.mul_div_le n (Z.pos d) ltac:(lia)). nia.
Qed.

(** Every rational is above the predecessor of its truncation. *)
Lemma Qtrunc_gt_pred (q : Q) : (inject_Z (Qtrunc q - 1) < q)%Q.
Proof.
  destruct q as [n d]. unfold Qtrunc, Qlt; simpl.
  pose proof (Z.quot_rem' n (Z.pos d)) as E.
  destruct (Z.le_gt_cases 0 n) as [Hn | Hn].
  - pose proof (Z.rem_bound_pos n (Z.pos d) Hn ltac:(lia)). nia.
  - pose proof (Z.rem_bound_pos_neg n (Z.pos d) ltac:(lia) ltac:(lia)). nia.
Qed.

(** A rational above [z - 1], with [z] not positive, truncates to at
    least [z]. *)
Lemma Qtrunc_ge (q : Q) (z : Z) :
  z <= 0 -> (inject_Z (z - 1) < q)%Q -> z <= Qtrunc q.
Proof.
  intros Hz H.
  destruct (Qlt_le_dec q 0) as [Hq | Hq];
    [| pose proof (Qtrunc_nonneg q Hq); lia].
  destruct q as [n d]. unfold Qtrunc, Qlt in *; simpl in *.
  assert (Hn : n < 0) by lia.
  pose proof (Z.quot_opp_l n (Z.pos d) ltac:(lia)) as Ho.
  assert (Hlt : (- n) ÷ Z.pos d < 1 - z).
  { rewrite Z.quot_div_nonneg by lia. apply Z.div_lt_upper_bound; nia. }
  lia.
Qed.

Lemma Qtrunc_mono_nonneg (a b : Q) :
  (0 <= a)%Q -> (a <= b)%Q -> Qtrunc a <= Qtrunc b.
Proof.
  intros Ha Hab.
  pose proof (Qtrunc_below a Ha) as H1.
  pose proof (Qtrunc_lt_succ b) as H2.
  assert (H : (inject_Z (Qtrunc a) < inject_Z (Qtrunc b + 1))%Q).
  { eapply Qle_lt_trans; [exact H1 |]. eapply Qle_lt_trans; [exact Hab | exact H2]. }
  rewrite <- Zlt_Qlt in H. lia.
Qed.

Lemma velocity_ok_bounds (p : Player.t) :
  velocity_ok p -> (0 <= Player.velocity_up p <= 30)%Q.
Proof.
  intros (k & Hk & ->). unfold Qle; simpl. lia.
Qed.

(** One [update] takes any player with a velocity between 0 and 30 and an
    image at most 70 high into the range. *)
Lemma update_in_range (p : Player.t) :
  (0 <= Player.velocity_up p <= 30)%Q ->
  Surface.get_height (Player.surface p) <= 70 ->
  (inject_Z (-14) < Player.y (Player.update 640 8 p))%Q
  /\ Qtrunc (Player.y (Player.update 640 8 p))
     + Surface.get_height (Player.surface p) <= 643.
Proof.
  intros Hv Hh. rewrite Player_update_y.
  unfold clamped_y, clamped_velocity.
  destruct (Player_hitbox_edges p) as [-> ->].
  pose proof (Qtrunc_lt_succ (Player.y p)) as Hy.
  pose proof (Qtrunc_gt_pred (Player.y p)) as Hy'.
  unfold Z.sub in Hy'. rewrite inject_Z_plus in Hy, Hy'.
  rewrite inject_Z_opp in Hy'.
  set (t := Qtrunc (Player.y p)) in *.
  set (ph := Surface.get_height (Player.surface p)) in *.
  change (inject_Z 8 / 3)%Q with (8 # 3)%Q.
  change (inject_Z (-14)) with (-14 # 1)%Q.
  change (inject_Z 1) with 1%Q in Hy, Hy'.
  unfold Qdiv. change (/ 2)%Q with (1 # 2)%Q.
  destruct (Z.gtb_spec (t + ph) 640) as [Hb | Hb].
  - split; [lra |].
    assert (Qtrunc (570 - Player.velocity_up p * (1 # 2) + (8 # 3)) <= 572);
      [| lia].
    apply Qtrunc_le; [lia |]. change (inject_Z (572 + 1)) with 573%Q. lra.
  - destruct (Z.ltb_spec t 0) as [Ht | Ht].
    + change (Qtrunc (0 - 0 * (1 # 2) + (8 # 3))) with 2. split; [lra | lia].
    + assert (Ht' : (0 <= inject_Z t)%Q) by (unfold Qle; simpl; lia).
      split; [lra |].
      assert (Qtrunc (Player.y p - Player.velocity_up p * (1 # 2) + (8 # 3))
              <= t + 3); [| lia].
      apply Qtrunc_le; [lia |]. rewrite !inject_Z_plus.
      change (inject_Z 3) with 3%Q. change (inject_Z 1) with 1%Q. lra.
Qed.

Lemma player_in_range_run (image : Surface.t) (calls : list player_call) :
  Surface.get_height image <= 70 ->
  player_in_range image (player_run image calls).
Proof.
  intros Hh. unfold player_run.
  induction calls as [| c calls IH] using rev_ind.
  - split; [apply velocity_ok_init |]. split; [reflexivity |].
    split; [reflexivity |]. cbn. change (Qtrunc 200) with 200. lia.
  - rewrite fold_left_app. simpl.
    set (p := fold_left (player_step (Game.init image)) calls (Player.init image)) in *.
    destruct IH as (Hv & Hs & Hlo & Hhi). destruct c; cbn [player_step].
    + split; [apply velocity_ok_swim |]. repeat split; assumption.
    + change (Surface.get_height (Game.window (Game.init image))) with 640.
      change (Game.gravity (Game.init image)) with 8.
      split; [apply velocity_ok_update, Hv |].
      destruct (Player_update_frame 640 8 p) as [_ Es].
      split; [now rewrite Es |].
      rewrite <- Hs in Hh |- *.
      apply update_in_range; [apply velocity_ok_bounds, Hv | exact Hh].
Qed.

End PlayerMotion.

(** X12.  With an image at most 70 high, the player never leaves the
    window by more than 13 pixels at the top or 3 at the bottom, whatever
    the sequence of [swim()] and [update()] calls: the top edge of its
    hitbox is never less than -13 and the bottom edge never more than
    643. *)
Theorem player_stays_near_window (image : Surface.t) (calls : list player_call) :
  Surface.get_height image <= 70 ->
  -13 <= Rect.top (Player.get_hitbox (player_run image calls))
  /\ Rect.bottom (Player.get_hitbox (player_run image calls)) <= 643.
Proof.
  intros Hh.
  destruct (player_in_range_run image calls Hh) as (_ & Hs & Hlo & Hhi).
  destruct (Player_hitbox_edges (player_run image calls)) as [-> ->].
  rewrite Hs. split; [| exact Hhi].
  apply Qtrunc_ge; [lia | exact Hlo].
Qed.

Lemma player_stays_near_window_witness :
  let image := Surface.mk (70, 70) in
  let calls := [CallSwim; CallUpdate; CallUpdate; CallSwim; CallUpdate] in
  Surface.get_height image <= 70 /\
  -13 <= Rect.top (Player.get_hitbox (player_run image calls))
  /\ Rect.bottom (Player.get_hitbox (player_run image calls)) <= 643.
Proof.
  intros image calls.
  assert (H : Surface.get_height image <= 70) by (vm_compute; discriminate).
  split; [exact H |]. apply (player_stays_near_window image calls H).
Defined.

(** ** Rounded arithmetic *)

Section Binary64.
Local Open Scope Z_scope.
Import Rounded.

Lemma nearest_even_near (n d : Z) :
  0 < d -> 2 * Z.abs (nearest_even n d * d - n) <= d.
Proof.
  intros Hd. unfold nearest_even.
  pose proof (Z.div_mod n d ltac:(lia)) as E.
  pose proof (Z.mod_pos_bound n d Hd) as B.
  destruct (Z.ltb_spec (2 * (n mod d)) d);
    [| destruct (Z.ltb_spec d (2 * (n mod d)));
       [| destruct (Z.even (n / d))]]; nia.
Qed.

Lemma exponent_le_log2 (n d : Z) :
  exponent n d <= Z.log2 n - Z.log2 d.
Proof.
  unfold exponent. destruct (scale2 _ _ _) as [n' d'].
  destruct (n' <? d'); lia.
Qed.

Lemma exponent_lower (n d : Z) :
  0 < n -> 0 < d -> 0 <= exponent n d -> d * 2 ^ exponent n d <= n.
Proof.
  intros Hn Hd. unfold exponent, scale2.
  pose proof (Z.log2_spec n Hn) as [Ln _].
  pose proof (Z.log2_spec d Hd) as [_ Ld].
  pose proof (Z.log2_nonneg n). pose proof (Z.log2_nonneg d).
  set (k := Z.log2 n - Z.log2 d) in *.
  destruct (Z.leb_spec 0 (- k)) as [Hk | Hk].
  - destruct (Z.ltb_spec (n * 2 ^ (- k)) d) as [Hlt | Hge]; intros He.
    + lia.
    + assert (k = 0) as -> by lia. simpl in Hge. simpl. lia.
  - rewrite Z.opp_involutive.
    destruct (Z.ltb_spec n (d * 2 ^ k)) as [Hlt | Hge]; intros He.
    + assert (E : 2 ^ Z.succ (Z.log2 d) * 2 ^ (k - 1) = 2 ^ Z.log2 n).
      { rewrite <- Z.pow_add_r by lia. f_equal. lia. }
      assert (0 < 2 ^ (k - 1)) by (apply Z.pow_pos_nonneg; lia).
      nia.
    + lia.
Qed.

Lemma exponent_small (n d : Z) :
  0 < n -> 0 < d -> n <= 1024 * d -> exponent n d <= 10.
Proof.
  intros Hn Hd Hle.
  destruct (Z.le_gt_cases (exponent n d) 10) as [| Hgt]; [assumption |].
  pose proof (exponent_lower n d Hn Hd ltac:(lia)) as Hlow.
  assert (2 ^ 11 <= 2 ^ exponent n d) by (apply Z.pow_le_mono_r; lia).
  change (2 ^ 11) with 2048 in *. nia.
Qed.

(** The value of [binary64] where the significand has a fraction part. *)
Lemma binary64_value (q : Q) :
  Qnum q <> 0 ->
  let e := Z.max (exponent (Z.abs (Qnum q)) (Zpos (Qden q))) (-1022) in
  e <= 52 ->
  (binary64 q
   == (Z.sgn (Qnum q)
       * nearest_even (Z.abs (Qnum q) * 2 ^ (52 - e)) (Zpos (Qden q))
       # Z.to_pos (2 ^ (52 - e))))%Q.
Proof.
  intros Hn e He. unfold binary64.
  destruct (Z.eqb_spec (Qnum q) 0); [contradiction |].
  fold e. unfold scale2 at 1.
  destruct (Z.leb_spec 0 (52 - e)); [| lia].
  unfold scale2.
  destruct (Z.leb_spec 0 (e - 52)); rewrite Qred_correct.
  - assert (E : e = 52) by lia. rewrite E. simpl (52 - 52). simpl (2 ^ 0).
    rewrite !Z.mul_1_r. reflexivity.
  - replace (- (e - 52)) with (52 - e) by lia. rewrite Z.mul_1_l.
    reflexivity.
Qed.

Lemma binary64_error (x : Q) :
  (-1024 <= x <= 1024)%Q ->
  (Qabs (binary64 x - x) <= 1 # 8796093022208)%Q.
Proof.
  intros [Hlo Hhi].
  destruct (Z.eq_dec (Qnum x) 0) as [E0 | Hn].
  - unfold binary64. rewrite E0. simpl.
    destruct x as [n d]. simpl in E0. subst n.
    apply Qabs_Qle_condition. unfold Qle; simpl. lia.
  - set (d := Zpos (Qden x)). set (n := Qnum x) in *.
    assert (Hd : 0 < d) by (unfold d; lia).
    assert (Habs : Z.abs n <= 1024 * d).
    { destruct x as [n0 d0]. unfold Qle in *; simpl in *. subst n d. lia. }
    pose proof (exponent_small (Z.abs n) d ltac:(lia) Hd Habs) as He.
    pose proof (binary64_value x Hn) as Hv. cbv zeta in Hv.
    fold n d in Hv.
    set (e := Z.max (exponent (Z.abs n) d) (-1022)) in *.
    assert (He' : -1022 <= e <= 10) by (unfold e; lia).
    specialize (Hv ltac:(lia)).
    set (P := 2 ^ (52 - e)) in *.
    set (m := nearest_even (Z.abs n * P) d) in *.
    pose proof (nearest_even_near (Z.abs n * P) d Hd) as Hnear. fold m in Hnear.
    assert (HP : 2 ^ 42 <= P) by (apply Z.pow_le_mono_r; lia).
    change (2 ^ 42) with 4398046511104 in HP.
    rewrite Hv. clear Hv.
    assert (Ex : (x == n # Qden x)%Q) by (destruct x; reflexivity).
    rewrite Ex.
    apply Qabs_Qle_condition. unfold Qle, Qminus, Qplus, Qopp; simpl.
    rewrite !Z2Pos.id by lia. fold d.
    assert (Hs : Z.abs (Z.sgn n * m * d - n * P) = Z.abs (m * d - Z.abs n * P)).
    { destruct n; simpl; try lia. }
    split; nia.
Qed.

Lemma binary64_exact (x : Q) (z : Z) :
  (x == inject_Z z)%Q -> -1024 <= z <= 1024 ->
  (binary64 x == inject_Z z)%Q.
Proof.
  intros Ex Hz.
  assert (En : Qnum x = z * Zpos (Qden x)).
  { unfold Qeq in Ex. simpl in Ex. lia. }
  destruct (Z.eq_dec (Qnum x) 0) as [E0 | Hn].
  - unfold binary64. rewrite E0. simpl.
    assert (z = 0) as -> by nia. reflexivity.
  - set (d := Zpos (Qden x)) in *. set (n := Qnum x) in *.
    assert (Hd : 0 < d) by (unfold d; lia).
    assert (Hz0 : z <> 0) by (intros ->; lia).
    assert (Habs : Z.abs n = Z.abs z * d)
      by (rewrite En, Z.abs_mul, (Z.abs_eq d) by lia; reflexivity).
    assert (He : exponent (Z.abs n) d <= 11).
    { pose proof (exponent_le_log2 (Z.abs n) d) as Hl. rewrite Habs in Hl |- *.
      pose proof (Z.log2_mul_above (Z.abs z) d ltac:(lia) ltac:(lia)).
      assert (Z.log2 (Z.abs z) <= Z.log2 1024) by (apply Z.log2_le_mono; lia).
      change (Z.log2 1024) with 10 in *. lia. }
    pose proof (binary64_value x Hn) as Hv. cbv zeta in Hv. fold n d in Hv.
    set (e := Z.max (exponent (Z.abs n) d) (-1022)) in *.
    specialize (Hv ltac:(lia)).
    set (P := 2 ^ (52 - e)) in *.
    assert (HP : 0 < P) by (apply Z.pow_pos_nonneg; lia).
    assert (Em : nearest_even (Z.abs n * P) d = Z.abs z * P).
    { unfold nearest_even.
      replace (Z.abs n * P) with (Z.abs z * P * d) by (rewrite Habs; ring).
      rewrite Z.mod_mul, Z.div_mul by lia.
      destruct (Z.ltb_spec (2 * 0) d); [reflexivity | lia]. }
    rewrite Hv, Em. unfold Qeq; simpl. rewrite Z2Pos.id by lia.
    assert (Z.sgn n = Z.sgn z).
    { rewrite En, Z.sgn_mul. destruct (Z.sgn_spec d) as [[_ ->] | [[? _] | [? _]]]; lia. }
    pose proof (Z.sgn_abs z). nia.
Qed.
End Binary64.

(** With no rounding [Rounded.update] is [Player.update]. *)
Lemma Rounded_update_exact (window_height gravity : Z) (p : Player.t) :
  Rounded.update (fun q => q) window_height gravity p
  = Player.update window_height gravity p.
Proof. reflexivity. Qed.

(** Where the rounding shows: three ticks after the start the exact sum
    [200 + 3 * (8/3)] is 208, the float sum is just below it, and the
    hitbox of the code is one pixel higher than that of exact
    arithmetic. *)
Lemma rounding_shows_after_three_ticks :
  let p := Player.init (Surface.mk (70, 70)) in
  Rect.top (Player.get_hitbox (Nat.iter 3 (Player.update 640 8) p)) = 208
  /\ Rect.top (Player.get_hitbox
                 (Nat.iter 3 (Rounded.update Rounded.binary64 640 8) p)) = 207.
Proof. vm_compute. split; reflexivity. Qed.

(** ** A stroke *)

Section Stroke.
Local Open Scope Z_scope.

(** Any rounding that is exact on the small integers and changes a
    result of absolute value up to 1024 by at most [half_ulp]. *)
Variable rnd : Q -> Q.
Hypothesis rnd_error :
  forall x : Q, (-1024 <= x <= 1024)%Q -> (Qabs (rnd x - x) <= half_ulp)%Q.
Hypothesis rnd_exact :
  forall (x : Q) (z : Z),
    (x == inject_Z z)%Q -> -1024 <= z <= 1024 -> (rnd x == inject_Z z)%Q.

(** The velocity, the rise and the error bound along the fifteen ticks
    of a stroke. *)
Lemma stroke_table (k : nat) :
  (k <= 15)%nat ->
  (0 <= swim_rise k <= 247 # 3)%Q
  /\ (stroke_error k <= swim_rise k)%Q
  /\ (0 <= stroke_error k <= 1 # 137438953472)%Q
  /\ (swim_velocity k == inject_Z (2 * (15 - Z.of_nat k)))%Q.
Proof.
  intros Hk.
  assert (H : forallb (fun j => Qle_bool 0 (swim_rise j)
                                && Qle_bool (swim_rise j) (247 # 3)
                                && Qle_bool (stroke_error j) (swim_rise j)
                                && Qle_bool 0 (stroke_error j)
                                && Qle_bool (stroke_error j) (1 # 137438953472)
                                && Qeq_bool (swim_velocity j)
                                     (inject_Z (2 * (15 - Z.of_nat j))))
                      (seq 0 16) = true) by (vm_compute; reflexivity).
  rewrite forallb_forall in H. specialize (H k).
  rewrite in_seq in H. specialize (H ltac:(lia)).
  repeat (apply andb_prop in H; destruct H as [H ?]).
  repeat match goal with
         | E : Qle_bool _ _ = true |- _ => apply Qle_bool_iff in E
         | E : Qeq_bool _ _ = true |- _ => apply Qeq_bool_iff in E
         end.
  repeat split; assumption.
Qed.

Lemma stroking_step (p0 p : Player.t) (k : nat) :
  0 <= Surface.get_height (Player.surface p0) ->
  (83 <= Player.y p0)%Q ->
  Rect.bottom (Player.get_hitbox p0) <= 640 ->
  (k < 15)%nat ->
  stroking p0 k p -> stroking p0 (S k) (Rounded.update rnd 640 8 p).
Proof.
  intros Hh0 Hy0 Hb0 Hk (Hx & Hs & Hv & Hy).
  destruct (stroke_table k ltac:(lia)) as ((Hr0 & Hr1) & Her & (He0 & He1) & Hvk).
  destruct (stroke_table (S k) ltac:(lia)) as (_ & _ & _ & Hvk').
  destruct (Player_hitbox_edges p) as [Et Eb].
  destruct (Player_hitbox_edges p0) as [_ Eb0].
  rewrite Eb0 in Hb0.
  assert (Hy0' : (Player.y p0 < 641)%Q).
  { eapply Qlt_le_trans; [apply Qtrunc_lt_succ |].
    change 641%Q with (inject_Z 641). rewrite <- Zle_Qle. lia. }
  apply Qabs_Qle_condition in Hy. destruct Hy as [Hy1 Hy2].
  assert (Hy_lo : (0 <= Player.y p)%Q) by lra.
  assert (Hy_hi : (Player.y p <= Player.y p0)%Q) by lra.
  unfold Rounded.update.
  destruct (Z.gtb_spec (Rect.bottom (Player.get_hitbox p)) 640) as [Hc | _].
  { exfalso. rewrite Eb, Hs in Hc.
    pose proof (Qtrunc_mono_nonneg _ _ Hy_lo Hy_hi). lia. }
  destruct (Z.ltb_spec (Rect.top (Player.get_hitbox p)) 0) as [Hc | _].
  { exfalso. rewrite Et in Hc. pose proof (Qtrunc_nonneg _ Hy_lo). lia. }
  clear Et Eb. destruct p as [px py ps pv].
  cbn [Player.x Player.y Player.surface Player.velocity_up] in *.
  cbv zeta.
  cbn [Player.set_y Player.set_velocity_up Player.x Player.y Player.surface
       Player.velocity_up].
  assert (Hgt : Qgtb pv 0 = true).
  { apply Qgtb_true. rewrite Hv, Hvk. unfold Qlt; cbn. lia. }
  rewrite Hgt.
  cbn [Player.set_y Player.set_velocity_up Player.x Player.y Player.surface
       Player.velocity_up].
  unfold stroking.
  cbn [Player.set_y Player.set_velocity_up Player.x Player.y Player.surface
       Player.velocity_up].
  split; [exact Hx |]. split; [exact Hs |]. split.
  - rewrite Hvk'. apply rnd_exact; [| lia].
    rewrite Hv, Hvk, (rnd_exact (inject_Z 8 / 4) 2 ltac:(reflexivity) ltac:(lia)).
    unfold Qeq, Qminus, Qplus, Qopp, inject_Z. cbn [Qnum Qden]. lia.
  - assert (Hhalf : (pv / 2 == inject_Z (15 - Z.of_nat k))%Q).
    { rewrite Hv, Hvk, inject_Z_mult. field. }
    pose proof (rnd_exact (pv / 2) (15 - Z.of_nat k) Hhalf ltac:(lia)) as Ha1.
    set (a1 := rnd (pv / 2)) in *.
    assert (Ha1' : (a1 == swim_velocity k * (1 # 2))%Q).
    { rewrite Ha1, Hvk, inject_Z_mult. field. }
    assert (Ha1b : (0 <= a1 <= 15)%Q).
    { rewrite Ha1. change 0%Q with (inject_Z 0). change 15%Q with (inject_Z 15).
      rewrite <- !Zle_Qle. lia. }
    clear Ha1 Hhalf.
    pose proof (rnd_error (py - a1) ltac:(lra)) as E1.
    set (y1 := rnd (py - a1)) in *.
    apply Qabs_Qle_condition in E1. destruct E1 as [E1 E1'].
    change (inject_Z 8 / 3)%Q with (8 # 3)%Q.
    assert (Hg : (-1024 <= 8 # 3 <= 1024)%Q)
      by (split; unfold Qle; cbn; lia).
    pose proof (rnd_error (8 # 3) Hg) as E3.
    set (g3 := rnd (8 # 3)) in *.
    apply Qabs_Qle_condition in E3. destruct E3 as [E3 E3'].
    unfold half_ulp in *.
    pose proof (rnd_error (y1 + g3) ltac:(unfold half_ulp; lra)) as E2.
    set (y2 := rnd (y1 + g3)) in *.
    apply Qabs_Qle_condition in E2. destruct E2 as [E2 E2'].
    unfold half_ulp in *.
    cbn [swim_rise stroke_error].
    change (inject_Z 8 / 3)%Q with (8 # 3)%Q. unfold half_ulp.
    unfold Qdiv. change (/ 2)%Q with (1 # 2)%Q.
    apply Qabs_Qle_condition. split; lra.
Qed.

Lemma stroking_iter (p0 : Player.t) (k : nat) :
  0 <= Surface.get_height (Player.surface p0) ->
  (83 <= Player.y p0)%Q ->
  Rect.bottom (Player.get_hitbox p0) <= 640 ->
  (k <= 15)%nat ->
  stroking p0 k (Nat.iter k (Rounded.update rnd 640 8) (Player.swim p0)).
Proof.
  intros Hh0 Hy0 Hb0. induction k as [| k IH]; intros Hk.
  - simpl Nat.iter. unfold stroking, Player.swim.
    cbn [Player.set_velocity_up Player.x Player.y Player.surface
         Player.velocity_up swim_velocity swim_rise stroke_error].
    split; [reflexivity |]. split; [reflexivity |]. split; [reflexivity |].
    apply Qabs_Qle_condition. split; lra.
  - simpl Nat.iter. apply stroking_step; [assumption .. | lia | apply IH; lia].
Qed.

(** A stroke under any such rounding. *)
Lemma stroke_rounded (p : Player.t) :
  0 <= Surface.get_height (Player.surface p) ->
  (83 <= Player.y p)%Q ->
  Rect.bottom (Player.get_hitbox p) <= 640 ->
  let p' := Nat.iter 15 (Rounded.update rnd 640 8) (Player.swim p) in
  (Qabs (Player.y p' - (Player.y p - 80)) <= 1 # 137438953472)%Q
  /\ (Player.velocity_up p' == 0)%Q
  /\ Player.x p' = Player.x p
  /\ Player.surface p' = Player.surface p
  /\ Rect.top (Player.get_hitbox p) - 81 <= Rect.top (Player.get_hitbox p')
     <= Rect.top (Player.get_hitbox p) - 79.
Proof.
  intros Hh Hy Hb p'.
  destruct (stroking_iter p 15 Hh Hy Hb ltac:(lia)) as (Hx & Hs & Hv & Hy').
  fold p' in Hx, Hs, Hv, Hy'.
  destruct (stroke_table 15 ltac:(lia)) as (_ & _ & (_ & He) & _).
  assert (E : (swim_rise 15 == 80)%Q) by reflexivity.
  assert (Hy'' : (Qabs (Player.y p' - (Player.y p - 80))
                  <= 1 # 137438953472)%Q).
  { eapply Qle_trans; [| exact He]. now rewrite <- E. }
  split; [exact Hy'' |]. split; [rewrite Hv; reflexivity |].
  split; [exact Hx |]. split; [exact Hs |].
  destruct (Player_hitbox_edges p) as [-> _].
  destruct (Player_hitbox_edges p') as [-> _].
  apply Qabs_Qle_condition in Hy''. destruct Hy'' as [Hlo Hhi].
  assert (Hy0 : (0 <= Player.y p)%Q) by lra.
  pose proof (Qtrunc_below _ Hy0) as Hbelow.
  pose proof (Qtrunc_lt_succ (Player.y p)) as Habove.
  pose proof (Qtrunc_nonneg _ Hy0) as Hnn.
  assert (H83 : 83 <= Qtrunc (Player.y p)).
  { rewrite <- (Qtrunc_inject_Z 83).
    apply Qtrunc_mono_nonneg; [unfold Qle; cbn; lia | exact Hy]. }
  set (t := Qtrunc (Player.y p)) in *.
  rewrite inject_Z_plus in Habove. change (inject_Z 1) with 1%Q in Habove.
  split.
  - rewrite <- (Qtrunc_inject_Z (t - 81)).
    apply Qtrunc_mono_nonneg.
    + change 0%Q with (inject_Z 0). rewrite <- Zle_Qle. lia.
    + replace (t - 81) with (t + -81) by lia.
      rewrite inject_Z_plus. change (inject_Z (-81)) with (-81 # 1)%Q. lra.
  - apply Qtrunc_le; [lia |].
    replace (t - 79 + 1) with (t + -78) by lia.
    rewrite inject_Z_plus. change (inject_Z (-78)) with (-78 # 1)%Q. lra.
Qed.
End Stroke.

(** X13.  One stroke lifts the player by 80: after [swim()] and fifteen
    [update()]s computed in binary64 the upward velocity is back at 0 and
    [y] is 80 less than before, up to the rounding of the fifteen sums
    (at most [2^-37]), so that the top of the hitbox is 80 higher, give
    or take one pixel; this for a player whose image has a height, whose
    hitbox starts inside the window and whose [y] is at least 83, so that
    no clamp fires on the way. *)
Theorem swim_lifts_by_80 (p : Player.t) :
  0 <= Surface.get_height (Player.surface p) ->
  (83 <= Player.y p)%Q ->
  Rect.bottom (Player.get_hitbox p) <= 640 ->
  let p' := Nat.iter 15 (Rounded.update Rounded.binary64 640 8)
                     (Player.swim p) in
  (Qabs (Player.y p' - (Player.y p - 80)) <= 1 # 137438953472)%Q
  /\ (Player.velocity_up p' == 0)%Q
  /\ Player.x p' = Player.x p
  /\ Player.surface p' = Player.surface p
  /\ Rect.top (Player.get_hitbox p) - 81 <= Rect.top (Player.get_hitbox p')
     <= Rect.top (Player.get_hitbox p) - 79.
Proof.
  apply (stroke_rounded Rounded.binary64 binary64_error binary64_exact).
Qed.

Lemma swim_lifts_by_80_witness :
  let p := Player.init (Surface.mk (70, 70)) in
  let p' := Nat.iter 15 (Rounded.update Rounded.binary64 640 8)
                     (Player.swim p) in
  0 <= Surface.get_height (Player.surface p) /\
  (83 <= Player.y p)%Q /\
  Rect.bottom (Player.get_hitbox p) <= 640 /\
  Rect.top (Player.get_hitbox p) = 200 /\
  Rect.top (Player.get_hitbox p') = 119 /\
  (Qabs (Player.y p' - (Player.y p - 80)) <= 1 # 137438953472)%Q
  /\ (Player.velocity_up p' == 0)%Q
  /\ Player.x p' = Player.x p
  /\ Player.surface p' = Player.surface p
  /\ Rect.top (Player.get_hitbox p) - 81 <= Rect.top (Player.get_hitbox p')
     <= Rect.top (Player.get_hitbox p) - 79.
Proof.
  intros p p'.
  assert (H0 : 0 <= Surface.get_height (Player.surface p))
    by (vm_compute; discriminate).
  assert (H1 : (83 <= Player.y p)%Q) by (vm_compute; discriminate).
  assert (H2 : Rect.bottom (Player.get_hitbox p) <= 640)
    by (vm_compute; discriminate).
  split; [exact H0 |]. split; [exact H1 |]. split; [exact H2 |].
  split; [vm_compute; reflexivity |].
  split; [vm_compute; reflexivity |].
  apply (swim_lifts_by_80 p H0 H1 H2).
Defined.

(** ** Input *)

Section Input.
Import Game.
Local Open Scope Z_scope.

Lemma handle_event_run (e : event) (g : Game.t) :
  Surface.get_height (window g) = 640 ->
  draw_in_range (event_draw e) ->
  handle_event e g
  = (Ok (if is_quit e then Exit else Continue), after_event e g).
Proof.
  intros Hw Hd. unfold draw_in_range in Hd.
  assert (Hadd : forall d, -100 <= d <= 100 ->
            add_obstacle d g
            = (Ok tt, set_obstacles (obstacles g ++ [length (heap g)])
                        (set_heap (heap g ++ [spawned d]) g))).
  { intros d Hr. apply add_obstacle_run. rewrite Hw.
    apply Obstacle_init_ok; [lia | exact Hr]. }
  destruct e as [| d | k d |]; simpl in Hd; unfold handle_event, after_event.
  - reflexivity.
  - unfold bind. now rewrite (Hadd d Hd).
  - destruct k; try reflexivity.
    unfold bind, ret. cbv beta iota. now rewrite (Hadd d Hd).
  - reflexivity.
Qed.

Lemma after_event_window (e : event) (g : Game.t) :
  window (after_event e g) = window g.
Proof.
  unfold after_event. destruct (is_spawn e); [reflexivity |].
  destruct (is_swim e); reflexivity.
Qed.

(** The poll goes on after an event exactly when the event does not
    quit. *)
Lemma process_input_cons (e : event) (rest : list event) (g : Game.t) :
  Surface.get_height (window g) = 640 ->
  draw_in_range (event_draw e) ->
  process_input (e :: rest) g
  = if is_quit e then (Ok Exit, after_event e g)
    else process_input rest (after_event e g).
Proof.
  intros Hw Hd. simpl process_input. unfold bind at 1.
  rewrite handle_event_run by assumption.
  destruct (is_quit e); reflexivity.
Qed.

Lemma quit_changes_nothing (e : event) (g : Game.t) :
  is_quit e = true -> after_event e g = g.
Proof. destruct e as [| d | [] d |]; try discriminate; reflexivity. Qed.

Lemma process_input_run (events : list event) (g : Game.t) :
  Surface.get_height (window g) = 640 ->
  Forall (fun e => draw_in_range (event_draw e)) events ->
  process_input events g
  = (Ok (if existsb is_quit events then Exit else Continue),
     fold_left (fun g0 e => after_event e g0) (before_quit events) g).
Proof.
  revert g. induction events as [| e rest IH]; intros g Hw Hd; [reflexivity |].
  apply Forall_cons in Hd. destruct Hd as [He Hd].
  rewrite process_input_cons by assumption. simpl.
  destruct (is_quit e) eqn:Eq; simpl.
  - now rewrite quit_changes_nothing.
  - apply IH; [now rewrite after_event_window | exact Hd].
Qed.

Lemma before_quit_app (l1 l2 : list event) :
  existsb is_quit l1 = false ->
  before_quit (l1 ++ l2) = l1 ++ before_quit l2.
Proof.
  induction l1 as [| e l1 IH]; simpl; [reflexivity |].
  destruct (is_quit e); [discriminate |]. simpl. intros H. now rewrite IH.
Qed.

Lemma before_quit_id (l : list event) :
  existsb is_quit l = false -> before_quit l = l.
Proof.
  intros H. rewrite <- (app_nil_r l) at 1. rewrite before_quit_app by exact H.
  apply app_nil_r.
Qed.

(** The obstacles and the stroke the handled events add up to. *)
Lemma after_events (l : list event) (g : Game.t) :
  fold_left (fun g0 e => after_event e g0) l g
  = let draws := map event_draw (List.filter is_spawn l) in
    set_player (if existsb is_swim l then Player.swim (player g) else player g)
      (set_obstacles (obstacles g ++ seq (length (heap g)) (length draws))
         (set_heap (heap g ++ map spawned draws) g)).
Proof.
  revert g. induction l as [| e l IH]; intros g.
  - simpl. rewrite !app_nil_r. now destruct g.
  - simpl fold_left. rewrite IH. cbv zeta. unfold after_event.
    destruct e as [| d | [] d |]; cbn;
      rewrite ?length_app, ?Nat.add_1_r, <- ?app_assoc; cbn;
      try reflexivity.
    destruct (existsb is_swim l); reflexivity.
Qed.
End Input.

(** X14.  Events that follow a quit event (the QUIT event or the key
    [q]) in one poll are never handled: whatever comes after it,
    [process_input()] ends with the exit and leaves the session as the
    events before the quit made it. *)
Theorem quit_stops_the_poll (before after : list event) (q : event) (g : Game.t) :
  Surface.get_height (Game.window g) = 640 ->
  Forall (fun e => draw_in_range (event_draw e)) before ->
  existsb is_quit before = false ->
  is_quit q = true ->
  process_input before g = (Ok Continue, Game.exec (process_input before) g)
  /\ process_input (before ++ q :: after) g
     = (Ok Exit, Game.exec (process_input before) g).
Proof.
  intros Hw Hd Hb Hq.
  assert (E : process_input before g
              = (Ok Continue,
                 fold_left (fun g0 e => after_event e g0) before g)).
  { rewrite process_input_run by assumption.
    now rewrite Hb, before_quit_id. }
  unfold Game.exec. rewrite E. split; [reflexivity |]. cbn [snd].
  clear E. revert g Hw. induction before as [| e l IH]; intros g Hw.
  - simpl app. simpl fold_left. simpl process_input. unfold Game.bind at 1.
    destruct q as [| d | [] d |]; try discriminate; reflexivity.
  - apply Forall_cons in Hd. destruct Hd as [He Hd].
    simpl in Hb. apply orb_false_elim in Hb. destruct Hb as [Hqe Hb].
    simpl app. rewrite process_input_cons by assumption. rewrite Hqe.
    simpl fold_left. apply IH; [exact Hd | exact Hb |].
    now rewrite after_event_window.
Qed.

Lemma quit_stops_the_poll_witness :
  let g := Game.init (Surface.mk (70, 70)) in
  let before := [EvKeyDown K_SPACE 0; EvObstacleSpawn 30] in
  let after := [EvObstacleSpawn 5; EvKeyDown K_o 7] in
  Surface.get_height (Game.window g) = 640 /\
  Forall (fun e => draw_in_range (event_draw e)) before /\
  existsb is_quit before = false /\
  is_quit EvQuit = true /\
  process_input before g = (Ok Continue, Game.exec (process_input before) g)
  /\ process_input (before ++ EvQuit :: after) g
     = (Ok Exit, Game.exec (process_input before) g).
Proof.
  intros g before after.
  assert (H1 : Surface.get_height (Game.window g) = 640) by reflexivity.
  assert (H2 : Forall (fun e => draw_in_range (event_draw e)) before)
    by (repeat constructor; unfold draw_in_range; simpl; lia).
  assert (H3 : existsb is_quit before = false) by reflexivity.
  assert (H4 : is_quit EvQuit = true) by reflexivity.
  split; [exact H1 |]. split; [exact H2 |]. split; [exact H3 |].
  split; [exact H4 |].
  apply (quit_stops_the_poll before after EvQuit g H1 H2 H3 H4).
Defined.

(** X15.  What one poll does, in a session with the 640 window and with
    draws in [-100, 100]: [process_input()] never raises; it exits exactly
    when the events hold a quit; of the events in front of the first quit,
    each spawn event and each key [o] appends one new obstacle at
    [x = 1200] to the queue, in the order of the events, and a key space
    among them sets the upward velocity to 30; the state,
    [obstacles_passed], [distance_traveled], the player's position and the
    obstacles already there are as before. *)
Theorem process_input_effect (events : list event) (g : Game.t) :
  Surface.get_height (Game.window g) = 640 ->
  Forall (fun e => draw_in_range (event_draw e)) events ->
  let handled := before_quit events in
  let draws := map event_draw (List.filter is_spawn handled) in
  process_input events g
  = (Ok (if existsb is_quit events then Exit else Continue),
     Game.set_player
       (if existsb is_swim handled then Player.swim (Game.player g)
        else Game.player g)
       (Game.set_obstacles
          (Game.obstacles g ++ seq (length (Game.heap g)) (length draws))
          (Game.set_heap (Game.heap g ++ map spawned draws) g))).
Proof.
  intros Hw Hd. cbv zeta.
  rewrite process_input_run by assumption. f_equal. apply after_events.
Qed.

Lemma process_input_effect_witness :
  let g := Game.init (Surface.mk (70, 70)) in
  let events := [EvObstacleSpawn 30; EvKeyDown K_SPACE 0; EvOther;
                 EvKeyDown K_q 0; EvKeyDown K_o 7] in
  Surface.get_height (Game.window g) = 640 /\
  Forall (fun e => draw_in_range (event_draw e)) events /\
  let handled := before_quit events in
  let draws := map event_draw (List.filter is_spawn handled) in
  process_input events g
  = (Ok (if existsb is_quit events then Exit else Continue),
     Game.set_player
       (if existsb is_swim handled then Player.swim (Game.player g)
        else Game.player g)
       (Game.set_obstacles
          (Game.obstacles g ++ seq (length (Game.heap g)) (length draws))
          (Game.set_heap (Game.heap g ++ map spawned draws) g))).
Proof.
  intros g events.
  assert (H1 : Surface.get_height (Game.window g) = 640) by reflexivity.
  assert (H2 : Forall (fun e => draw_in_range (event_draw e)) events)
    by (repeat constructor; unfold draw_in_range; simpl; lia).
  split; [exact H1 |]. split; [exact H2 |].
  apply (process_input_effect events g H1 H2).
Defined.

(** ** The life of an obstacle and the end of a game *)

(** X16.  Every queued obstacle of a session the operations lead to has
    made between 0 and 254 steps of 5 from 1200, and the next tick keeps
    it in the queue exactly when it has made fewer than 254: an obstacle
    is removed by the 255th tick after its spawn, which takes it from
    [x = -70] to [x = -75], and by no other. *)
Theorem obstacle_lifetime (g : Game.t) (r : ref) :
  reachable g -> In r (Game.obstacles g) ->
  exists k : Z,
    0 <= k <= 254
    /\ Obstacle.x (Game.heap g !!! r) = 1200 - 5 * k
    /\ (In r (Game.obstacles (Game.exec Game.update g)) <-> k < 254).
Proof.
  intros Hg Hin.
  pose proof (session_ok_reachable g Hg) as Hok.
  destruct (session_regular_reachable g Hg) as [Hreg Hon].
  pose proof (built_heap_wf _ (ok_built g Hok)) as Hwf.
  pose proof (ok_refs g Hok) as Hrefs. rewrite Forall_forall in Hrefs.
  pose proof Hin as Hin'. apply list_elem_of_In in Hin'.
  pose proof (Forall_lookup_total_1 _ _ _ Hreg (Hrefs r Hin'))
    as ((Hs & _) & Hw & _ & k & Hk & Ek).
  unfold queue_on_screen in Hon. rewrite Forall_forall in Hon.
  pose proof (Hon r Hin') as Hr. unfold Game.on_screen in Hr.
  rewrite Hw, Z.gtb_ltb, Z.ltb_lt in Hr.
  exists k. split; [lia |]. split; [exact Ek |].
  rewrite tick_queue by exact Hwf. rewrite filter_In.
  rewrite (tick_lookup g r Hok).
  destruct (decide (r ∈ Game.obstacles g)) as [_ | H]; [| contradiction].
  unfold Game.on_screen, Obstacle.update, Obstacle.get_surface in *. cbn.
  rewrite Hw, Hs, Z.gtb_ltb, Z.ltb_lt. split; [intros [_ H]; lia |].
  intros H. split; [exact Hin | lia].
Qed.

Lemma obstacle_lifetime_witness :
  let g := run (OpAddObstacle 0 :: repeat OpUpdate 254)
               (Game.init (Surface.mk (70, 70))) in
  reachable g /\ In 0%nat (Game.obstacles g) /\
  exists k : Z,
    0 <= k <= 254
    /\ Obstacle.x (Game.heap g !!! 0%nat) = 1200 - 5 * k
    /\ (In 0%nat (Game.obstacles (Game.exec Game.update g)) <-> k < 254).
Proof.
  intros g.
  assert (H1 : reachable g)
    by (exists (Surface.mk (70, 70)), (OpAddObstacle 0 :: repeat OpUpdate 254);
        reflexivity).
  assert (H2 : In 0%nat (Game.obstacles g)) by (vm_compute; now left).
  split; [exact H1 |]. split; [exact H2 |].
  apply (obstacle_lifetime g 0%nat H1 H2).
Defined.

(** X17.  Game over is final as long as [init_game()] is not called
    again: no other operation, in any number and order, takes the state out
    of OVER; and from RUNNING they lead to RUNNING or OVER only. *)
Theorem game_over_is_final (ops : list op) (g : Game.t) :
  Forall not_init_game ops ->
  (Game.state g = OVER -> Game.state (run ops g) = OVER)
  /\ (Game.state g = RUNNING ->
      Game.state (run ops g) = RUNNING \/ Game.state (run ops g) = OVER).
Proof.
  intros Hops. induction ops as [| o ops IH] using rev_ind.
  - split; [trivial | now left].
  - apply Forall_app in Hops. destruct Hops as [Hops Ho].
    apply Forall_cons in Ho. destruct Ho as [Ho _].
    destruct (IH Hops) as [IHo IHr]. rewrite run_snoc.
    destruct (state_step o (run ops g)) as [E | [[E _] | [_ E]]];
      [rewrite E | contradiction | rewrite E].
    + split; [exact IHo | exact IHr].
    + split; [reflexivity | now right].
Qed.

Lemma game_over_is_final_witness :
  let g := run (OpInitGame :: OpAddObstacle 0 :: repeat OpUpdate 177)
               (Game.init (Surface.mk (70, 70))) in
  let ops := [OpUpdate; OpAddObstacle 3; OpSwim; OpUpdate; OpCalculateFitness] in
  Forall not_init_game ops /\
  Game.state g = OVER /\
  (Game.state g = OVER -> Game.state (run ops g) = OVER)
  /\ (Game.state g = RUNNING ->
      Game.state (run ops g) = RUNNING \/ Game.state (run ops g) = OVER).
Proof.
  intros g ops.
  assert (H : Forall not_init_game ops)
    by (repeat constructor; discriminate).
  assert (H0 : Game.state g = OVER) by (vm_compute; reflexivity).
  split; [exact H |]. split; [exact H0 |].
  apply (game_over_is_final ops g H).
Defined.
